(** * UnSHACLed scheduler core: time capsule, task instructions, priority generator

    A shallow embedding of [src/entities/timeCapsule.ts] and
    [src/entities/taskInstruction.ts], together with the priority generator
    of [src/entities/priorityPartitionedQueue.ts], and the properties the
    specification states about them.

    JavaScript objects live in heaps ([gmap] from references to records), so
    that object identity ([===]) is equality of references.  Loops that walk
    parent pointers take a fuel argument; running out of fuel is the outcome
    [Timeout], which is kept apart from a raised error. *)

From Stdlib Require Import ZArith Lia.
From stdpp Require Import gmap list strings.

Local Open Scope Z_scope.

(** ** Outcomes of a call *)

(** What a JavaScript [throw] carries: [Error(msg)] as the sources raise it,
    and the [TypeError] of the runtime when a property of [null] is read. *)
Inductive exn : Type :=
  | Error (msg : string)
  | TypeError (msg : string).

Inductive outcome (A : Type) : Type :=
  | Ret (a : A)
  | Throw (e : exn)
  | Timeout.
Arguments Ret {A} a.
Arguments Throw {A} e.
Arguments Timeout {A}.

Definition obind {A B : Type} (m : outcome A) (k : A → outcome B) : outcome B :=
  match m with
  | Ret a => k a
  | Throw e => Throw e
  | Timeout => Timeout
  end.

Notation "'do' x <- m ; k" := (obind m (fun x => k))
  (at level 10, x name, m at level 100, k at level 200).

Definition raises {A : Type} (o : outcome A) : Prop := ∃ e, o = Throw e.

(** An object reference. *)
Definition ref : Type := nat.

Module TimeCapsule.

Section capsule.
Context {T : Type}.

(** The fields of one [TimeCapsule<T>] object, except [state]: all instants
    of a capsule point to one [TimeCapsuleState], which is the [state] field
    of the [Store] below.  [undoChange] and [redoChange] are closures of
    the caller that change the data object in place and return nothing:
    each maps the contents before to how the call ends ([Ret tt], a raised
    error, or no end) and the contents it leaves.  They do not call back
    into the capsule. *)
Record Instant : Type := mkInstant {
  parent : option ref;
  undoChange : T → outcome unit * T;
  redoChange : T → outcome unit * T;
  generation : Z
}.

(** A closure that changes the data by [f] and returns. *)
Definition returning (f : T → T) : T → outcome unit * T :=
  λ d, (Ret tt, f d).

(** The contents an instant's undo and redo leave. *)
Definition undone (i : Instant) (d : T) : T := (undoChange i d).2.
Definition redone (i : Instant) (d : T) : T := (redoChange i d).2.

(** [class TimeCapsuleState<T>]. *)
Record TimeCapsuleState : Type := mkState {
  data : T;
  currentInstant : option ref;
  acquisitionCount : Z
}.

(** The instants allocated so far and the state they share. *)
Record Store : Type := mkStore {
  instants : gmap ref Instant;
  state : TimeCapsuleState
}.

Definition null_read : exn := TypeError "Cannot read property of null".

(** Reading a field of [o]: a [TypeError] on [null]. *)
Definition deref (h : gmap ref Instant) (o : option ref) : outcome Instant :=
  match o with
  | None => Throw null_read
  | Some r =>
      match h !! r with
      | Some i => Ret i
      | None => Throw null_read
      end
  end.

(** [TimeCapsule.discard]. *)
Definition discard (arg : T) : outcome unit * T := (Ret tt, arg).

(** [TimeCapsule.create]: the root instant, at a fresh reference. *)
Definition create (d : T) : ref * Store :=
  let result := fresh (∅ : gset ref) in
  (result,
   mkStore {[ result := mkInstant None discard discard 0 ]}
           (mkState d (Some result) 0)).

(** [modify]: a new child of [this]; the shared state is not touched. *)
Definition modify (this : ref)
    (doChange undoChange' : T → outcome unit * T) (w : Store)
    : outcome ref * Store :=
  match deref (instants w) (Some this) with
  | Ret i =>
      let result := fresh (dom (instants w)) in
      (Ret result,
       mkStore (<[ result := mkInstant (Some this) undoChange' doChange
                                       (generation i + 1) ]> (instants w))
               (state w))
  | Throw e => (Throw e, w)
  | Timeout => (Timeout, w)
  end.

(** First loop of [findLastCommonAncestor]:
    [while (first.generation > second.generation) first = first.parent]. *)
Fixpoint levelFirst (fuel : nat) (h : gmap ref Instant)
    (first second : option ref) : outcome (option ref) :=
  match fuel with
  | O => Timeout
  | S fuel' =>
      do f <- deref h first;
      do s <- deref h second;
      if bool_decide (generation f > generation s)
      then levelFirst fuel' h (parent f) second
      else Ret first
  end.

(** Second loop:
    [while (second.generation > first.generation) second = second.parent]. *)
Fixpoint levelSecond (fuel : nat) (h : gmap ref Instant)
    (first second : option ref) : outcome (option ref) :=
  match fuel with
  | O => Timeout
  | S fuel' =>
      do s <- deref h second;
      do f <- deref h first;
      if bool_decide (generation s > generation f)
      then levelSecond fuel' h first (parent s)
      else Ret second
  end.

(** Third loop: [while (first !== second)] both step to their parents. *)
Fixpoint lockstep (fuel : nat) (h : gmap ref Instant)
    (first second : option ref) : outcome (option ref) :=
  match fuel with
  | O => Timeout
  | S fuel' =>
      if decide (first = second) then Ret first
      else
        do f <- deref h first;
        do s <- deref h second;
        lockstep fuel' h (parent f) (parent s)
  end.

Definition findLastCommonAncestor (fuel : nat) (h : gmap ref Instant)
    (first second : option ref) : outcome (option ref) :=
  do first' <- levelFirst fuel h first second;
  do second' <- levelSecond fuel h first' second;
  lockstep fuel h first' second'.

(** The loop of [pathToAncestor]; [results] is kept in push order. *)
Fixpoint pathLoop (fuel : nat) (h : gmap ref Instant)
    (instant ancestor : option ref) (results : list ref) : outcome (list ref) :=
  match fuel with
  | O => Timeout
  | S fuel' =>
      if decide (instant = ancestor) then Ret results
      else
        match instant with
        | None => Throw null_read
        | Some r =>
            do i <- deref h instant;
            pathLoop fuel' h (parent i) ancestor (results ++ [r])
        end
  end.

Definition pathToAncestor (fuel : nat) (h : gmap ref Instant)
    (this : ref) (ancestor : option ref) : outcome (list ref) :=
  pathLoop fuel h (Some this) ancestor [].

(** [for (let instant of path) { instant.change(data); }] on the shared
    data: the data as the loop leaves it, also when a call of [change]
    raises and so ends the loop. *)
Fixpoint forOf (h : gmap ref Instant)
    (change : Instant → T → outcome unit * T)
    (path : list ref) (d : T) : outcome unit * T :=
  match path with
  | [] => (Ret tt, d)
  | r :: path' =>
      match deref h (Some r) with
      | Ret i =>
          match change i d with
          | (Ret _, d') => forOf h change path' d'
          | (Throw e, d') => (Throw e, d')
          | (Timeout, d') => (Timeout, d')
          end
      | Throw e => (Throw e, d)
      | Timeout => (Timeout, d)
      end
  end.

Definition with_data (d : T) (w : Store) : Store :=
  mkStore (instants w)
          (mkState d (currentInstant (state w)) (acquisitionCount (state w))).

Definition with_currentInstant (c : option ref) (w : Store) : Store :=
  mkStore (instants w)
          (mkState (data (state w)) c (acquisitionCount (state w))).

Definition with_acquisitionCount (n : Z) (w : Store) : Store :=
  mkStore (instants w)
          (mkState (data (state w)) (currentInstant (state w)) n).

Definition already_acquired : exn :=
  Error "Time capsule state has already been acquired by some other instant.".
Definition not_acquired : exn :=
  Error "Cannot release a state that is not acquired.".
Definition acquired_elsewhere : exn :=
  Error "Cannot release a state that is acquired by some other instant.".

(** [acquire]: the value returned is the shared data object, whose contents
    at the time of the return are [data (state w')]. *)
Definition acquire (fuel : nat) (this : ref) (w : Store) : outcome T * Store :=
  let h := instants w in
  let d := data (state w) in
  let current := currentInstant (state w) in
  if decide (current = Some this) then
    (Ret d, with_acquisitionCount (acquisitionCount (state w) + 1) w)
  else if bool_decide (acquisitionCount (state w) > 0) then
    (Throw already_acquired, w)
  else
    match findLastCommonAncestor fuel h (Some this) current with
    | Throw e => (Throw e, w)
    | Timeout => (Timeout, w)
    | Ret ancestor =>
        match
          match current with
          | None => Throw null_read
          | Some c => pathToAncestor fuel h c ancestor
          end
        with
        | Throw e => (Throw e, w)
        | Timeout => (Timeout, w)
        | Ret undoPath =>
            match forOf h undoChange undoPath d with
            | (Throw e, d1) => (Throw e, with_data d1 w)
            | (Timeout, d1) => (Timeout, with_data d1 w)
            | (Ret _, d1) =>
                match pathToAncestor fuel h this ancestor with
                | Throw e => (Throw e, with_data d1 w)
                | Timeout => (Timeout, with_data d1 w)
                | Ret redoPath =>
                    match forOf h redoChange (rev redoPath) d1 with
                    | (Throw e, d2) => (Throw e, with_data d2 w)
                    | (Timeout, d2) => (Timeout, with_data d2 w)
                    | (Ret _, d2) =>
                        let w' := with_currentInstant (Some this) (with_data d2 w) in
                        (Ret d2,
                         with_acquisitionCount (acquisitionCount (state w') + 1) w')
                    end
                end
            end
        end
    end.

(** [release]. *)
Definition release (this : ref) (w : Store) : outcome unit * Store :=
  if decide (acquisitionCount (state w) = 0) then (Throw not_acquired, w)
  else if decide (currentInstant (state w) = Some this) then
    (Ret tt, with_acquisitionCount (acquisitionCount (state w) - 1) w)
  else (Throw acquired_elsewhere, w).

(** [query]: [func] receives the shared data object, may change it, and
    returns a result or raises; it does not call back into the capsule. *)
Definition query {TResult : Type} (fuel : nat) (this : ref)
    (func : T → outcome TResult * T) (w : Store) : outcome TResult * Store :=
  match acquire fuel this w with
  | (Throw e, w1) => (Throw e, w1)
  | (Timeout, w1) => (Timeout, w1)
  | (Ret d, w1) =>
      match func d with
      | (Throw e, d') => (Throw e, with_data d' w1)
      | (Timeout, d') => (Timeout, with_data d' w1)
      | (Ret result, d') =>
          match release this (with_data d' w1) with
          | (Throw e, w2) => (Throw e, w2)
          | (Timeout, w2) => (Timeout, w2)
          | (Ret _, w2) => (Ret result, w2)
          end
      end
  end.

End capsule.
Arguments Instant : clear implicits.
Arguments TimeCapsuleState : clear implicits.
Arguments Store : clear implicits.

(** *** The history tree, as the specification speaks of it *)

Section tree.
Context {T : Type}.
Implicit Types (h : gmap ref (Instant T)) (x y a b p root : ref).

(** [member h root x n]: [x] reaches [root] in [n] parent links, and on the
    way every generation equals the depth from the root. *)
Inductive member h root : ref → nat → Prop :=
  | member_root i :
      h !! root = Some i → parent i = None → generation i = 0 →
      member h root root O
  | member_child x i p n :
      h !! x = Some i → parent i = Some p → generation i = Z.of_nat (S n) →
      member h root p n →
      member h root x (S n).

(** [ancestor h a x]: [a] is [x] or is reached from [x] by parent links. *)
Inductive ancestor h a : ref → Prop :=
  | ancestor_self : ancestor h a a
  | ancestor_up x i p :
      h !! x = Some i → parent i = Some p → ancestor h a p →
      ancestor h a x.

(** [path h a x l]: [l] lists the instants from [x] up to [a], [x] first
    and [a] left out. *)
Inductive path h a : ref → list ref → Prop :=
  | path_here : path h a a []
  | path_up x i p l :
      x ≠ a → h !! x = Some i → parent i = Some p → path h a p l →
      path h a x (x :: l).

(** The last common ancestor: a common ancestor below every other one. *)
Definition last_common_ancestor h x y a : Prop :=
  ancestor h a x ∧ ancestor h a y ∧
  ∀ b, ancestor h b x → ancestor h b y → ancestor h b a.

(** The changes of the instants of [l], in the order of [l]. *)
Definition changes h (change : Instant T → T → T) (l : list ref) : list (T → T) :=
  omap (λ r, change <$> h !! r) l.

Definition apply_all (fs : list (T → T)) (d : T) : T :=
  foldl (λ d' f, f d') d fs.

(** Moving the data from instant [c] to instant [x]: nothing when they are
    the same instant; else the undos from [c] up to the last common
    ancestor, nearest first, then the redos down to [x], nearest to the
    ancestor first. *)
Definition moved h c x (d d' : T) : Prop :=
  (c = x ∧ d' = d) ∨
  (c ≠ x ∧ ∃ a pu pr,
     last_common_ancestor h x c a ∧ path h a c pu ∧ path h a x pr ∧
     d' = apply_all (changes h redone (rev pr))
            (apply_all (changes h undone pu) d)).

(** Every instant's undo is the inverse of its redo on the shared data. *)
Definition inverses h : Prop :=
  ∀ r i, h !! r = Some i →
    (∀ d, undone i (redone i d) = d) ∧
    (∀ d, redone i (undone i d) = d).

(** No undo and no redo raises or fails to return. *)
Definition quiet h : Prop :=
  ∀ r i d, h !! r = Some i →
    (undoChange i d).1 = Ret tt ∧ (redoChange i d).1 = Ret tt.

(** Every undo and every redo comes to an end, by returning or raising. *)
Definition ending h : Prop :=
  ∀ r i d, h !! r = Some i →
    (undoChange i d).1 ≠ Timeout ∧ (redoChange i d).1 ≠ Timeout.

(** The two loops of [acquire] along given paths: the undos of [pu], then
    the redos of [pr] reversed. *)
Definition replay h (pu pr : list ref) (d : T) : outcome unit * T :=
  match forOf h undoChange pu d with
  | (Ret _, d1) => forOf h redoChange (rev pr) d1
  | (Throw e, d1) => (Throw e, d1)
  | (Timeout, d1) => (Timeout, d1)
  end.

(** What holds of a capsule after any sequence of [create], [modify],
    [acquire] and [release]. *)
Record capsule_ok root (w : Store T) : Prop := mkOk {
  ok_members : ∀ x, is_Some (instants w !! x) → ∃ n, member (instants w) root x n;
  ok_current : ∃ c, currentInstant (state w) = Some c ∧ is_Some (instants w !! c);
  ok_count : 0 ≤ acquisitionCount (state w)
}.

End tree.

(** *** A small capsule over an integer

    The tree [0 <- 1 <- 2] and [0 <- 3]: instant 1 adds 1, instant 2 adds
    10, instant 3 adds 100; the data is at instant 2. *)
Module Example.

Definition tree : gmap ref (Instant Z) :=
  <[ 0%nat := mkInstant None discard discard 0 ]>
  (<[ 1%nat := mkInstant (Some 0%nat)
                 (returning (λ d, d - 1)) (returning (λ d, d + 1)) 1 ]>
  (<[ 2%nat := mkInstant (Some 1%nat)
                 (returning (λ d, d - 10)) (returning (λ d, d + 10)) 2 ]>
  (<[ 3%nat := mkInstant (Some 0%nat)
                 (returning (λ d, d - 100)) (returning (λ d, d + 100)) 1 ]> ∅))).

Definition at2 : Store Z := mkStore tree (mkState 11 (Some 2%nat) 0).

Definition at2_held : Store Z := mkStore tree (mkState 11 (Some 2%nat) 1).

(** The same tree with one more child of the root, instant 4, whose redo
    raises; the data is at instant 2 and the capsule is not acquired. *)
Definition faulty_tree : gmap ref (Instant Z) :=
  <[ 4%nat := mkInstant (Some 0%nat)
                (returning (λ d, d - 1000))
                (λ d, (Throw (Error "redo failed"), d)) 1 ]> tree.

Definition faulty_at2 : Store Z :=
  mkStore faulty_tree (mkState 11 (Some 2%nat) 0).

(** A function that raises, and one that returns the data it sees. *)
Definition failing (d : Z) : outcome Z * Z := (Throw (Error "failure"), d).
Definition reading (d : Z) : outcome Z * Z := (Ret d, d).

End Example.

End TimeCapsule.

Module TaskInstruction.

(** Modelled from the spec: the enumeration [ModelComponent] of
    [modelTaskMetadata.ts], which is not among the sources; the
    specification names its tags. *)
Inductive ModelComponent : Type :=
  | DataGraph
  | SHACLShapesGraph
  | ValidationReport
  | IO
  | UI.

#[global] Instance ModelComponent_eq_dec : EqDecision ModelComponent.
Proof. solve_decision. Defined.

Definition ModelComponent_code (c : ModelComponent) : nat :=
  match c with
  | DataGraph => 0 | SHACLShapesGraph => 1 | ValidationReport => 2
  | IO => 3 | UI => 4
  end%nat.

Definition ModelComponent_of_code (n : nat) : option ModelComponent :=
  match n with
  | 0 => Some DataGraph | 1 => Some SHACLShapesGraph
  | 2 => Some ValidationReport | 3 => Some IO | 4 => Some UI
  | _ => None
  end%nat.

#[global] Program Instance ModelComponent_countable : Countable ModelComponent :=
  inj_countable ModelComponent_code ModelComponent_of_code _.
Next Obligation. by intros []. Qed.

(** *** JavaScript arithmetic used by the index generator *)

(** [ToInt32]. *)
Definition to_int32 (z : Z) : Z := (z + 2 ^ 31) mod 2 ^ 32 - 2 ^ 31.

(** [a << b] on numbers: both operands go to 32 bits, the shift count is
    taken modulo 32, the result is a signed 32-bit integer. *)
Definition js_shl (a b : Z) : Z :=
  to_int32 (Z.shiftl (to_int32 a) (Z.land (to_int32 b) 31)).

(** [a % b] on integral numbers: the remainder has the sign of [a]. *)
Definition js_rem (a b : Z) : Z := Z.rem a b.

(** [generateInstructionIndex]: the result and the new [taskCounter].
    In [1 << 31 - 1] the subtraction binds tighter than the shift. *)
Definition generateInstructionIndex (taskCounter : Z) : Z * Z :=
  let result := taskCounter in
  (result, js_rem (taskCounter + 1) (js_shl 1 (31 - 1))).

(** The indices of [n] successive constructions, and the counter left. *)
Fixpoint generateIndices (n : nat) (taskCounter : Z) : list Z * Z :=
  match n with
  | O => ([], taskCounter)
  | S n' =>
      let '(i, c) := generateInstructionIndex taskCounter in
      let '(l, c') := generateIndices n' c in
      (i :: l, c')
  end.

Section instruction.
Context {Value Task : Type}.

(** Modelled from the spec: [ModelData] of [modelData.ts], which is not
    among the sources: a mapping from component identifier to an opaque
    value, where reading a component never set gives the absent value
    ([None]) and a set replaces the value. *)
Definition ModelData : Type := gmap ModelComponent Value.

(** Modelled from the spec: reading a component without checks. *)
Definition getComponentUnchecked (m : ModelData) (c : ModelComponent)
    : option Value :=
  m !! c.

(** Modelled from the spec: [setUnchecked(id, value)], a set that bypasses
    change tracking; the value may be the absent one. *)
Definition setComponentUnchecked (c : ModelComponent) (v : option Value)
    (m : ModelData) : ModelData :=
  partial_alter (λ _, v) c m.

(** One [TaskInstruction] object.  [Collections.Dictionary] and
    [Collections.Set] find a key by its string form, which for an
    instruction is [toString()], that is its [index]: both collections are
    maps from the index to what they store (the key object and the value
    for the dictionary, the element for the set). *)
Record Instruction : Type := mkInstruction {
  index : Z;
  task : Task;
  data : ref;
  dependencies : gmap Z (ref * gset ModelComponent);
  invertedDependencies : gmap Z ref
}.

(** The instruction objects, the [ModelData] objects they point to, and
    the static [taskCounter]. *)
Record Heap : Type := mkHeap {
  instructions : gmap ref Instruction;
  datas : gmap ref ModelData;
  taskCounter : Z
}.

Definition null_read : exn := TypeError "Cannot read property of undefined".

Definition load {A : Type} (h : gmap ref A) (r : ref) : outcome A :=
  match h !! r with
  | Some a => Ret a
  | None => Throw null_read
  end.

(** The constructor. *)
Definition new (t : Task) (d : ref) (w : Heap) : ref * Heap :=
  let '(i, counter) := generateInstructionIndex (taskCounter w) in
  let this := fresh (dom (instructions w)) in
  (this,
   mkHeap (<[ this := mkInstruction i t d ∅ ∅ ]> (instructions w))
          (datas w) counter).

(** [isEligibleForExecution]. *)
Definition isEligibleForExecution (i : Instruction) : bool :=
  bool_decide (dependencies i = ∅).

(** [Dictionary.getValue(key)]. *)
Definition getValue (d : gmap Z (ref * gset ModelComponent)) (key : Instruction)
    : option (gset ModelComponent) :=
  snd <$> d !! index key.

(** [Set.contains(element)]. *)
Definition contains (s : gmap Z ref) (element : Instruction) : bool :=
  bool_decide (is_Some (s !! index element)).

(** [Set.add(element)]: nothing happens when the set has the key. *)
Definition add (s : gmap Z ref) (r : ref) (element : Instruction) : gmap Z ref :=
  if contains s element then s else <[ index element := r ]> s.

Definition with_instruction (r : ref) (i : Instruction) (w : Heap) : Heap :=
  mkHeap (<[ r := i ]> (instructions w)) (datas w) (taskCounter w).

(** [addDependency]. *)
Definition addDependency (this dependency : ref) (component : ModelComponent)
    (w : Heap) : outcome unit * Heap :=
  match load (instructions w) this, load (instructions w) dependency with
  | Ret s, Ret p =>
      let componentSet :=
        match getValue (dependencies s) p with
        | Some cs => cs
        | None => ∅
        end in
      let componentSet := {[ component ]} ∪ componentSet in
      let s' := mkInstruction (index s) (task s) (data s)
                  (<[ index p := (dependency, componentSet) ]> (dependencies s))
                  (invertedDependencies s) in
      let w1 := with_instruction this s' w in
      match load (instructions w1) dependency with
      | Ret p1 =>
          let p' := mkInstruction (index p1) (task p1) (data p1) (dependencies p1)
                      (add (invertedDependencies p1) this s') in
          (Ret tt, with_instruction dependency p' w1)
      | Throw e => (Throw e, w1)
      | Timeout => (Timeout, w1)
      end
  | Throw e, _ => (Throw e, w)
  | _, Throw e => (Throw e, w)
  | _, _ => (Timeout, w)
  end.

(** The body of [componentsToTransfer.forEach], over the elements in the
    order the set yields them. *)
Fixpoint transferLoop (source target : ref) (components : list ModelComponent)
    (ds : gmap ref ModelData) : outcome unit * gmap ref ModelData :=
  match components with
  | [] => (Ret tt, ds)
  | c :: rest =>
      match ds !! source, ds !! target with
      | Some sd, Some td =>
          transferLoop source target rest
            (<[ target := setComponentUnchecked c (getComponentUnchecked sd c) td ]> ds)
      | _, _ => (Throw null_read, ds)
      end
  end.

Definition independent_transfer : exn :=
  Error "Cannot transfer components to independent instruction.".

(** [transferOutput]. *)
Definition transferOutput (this target : ref) (w : Heap) : outcome unit * Heap :=
  match load (instructions w) target, load (instructions w) this with
  | Ret t, Ret i =>
      match getValue (dependencies t) i with
      | None => (Throw independent_transfer, w)
      | Some componentsToTransfer =>
          let '(o, ds) :=
            transferLoop (data i) (data t) (elements componentsToTransfer) (datas w) in
          (o, mkHeap (instructions w) ds (taskCounter w))
      end
  | Throw e, _ => (Throw e, w)
  | _, Throw e => (Throw e, w)
  | _, _ => (Timeout, w)
  end.

(** No two instruction objects have the same index. *)
Definition indices_unique (w : Heap) : Prop :=
  ∀ r1 r2 i1 i2,
    instructions w !! r1 = Some i1 → instructions w !! r2 = Some i2 →
    index i1 = index i2 → r1 = r2.

(** Every dependency edge is recorded at the predecessor as well. *)
Definition edges_symmetric (w : Heap) : Prop :=
  ∀ S s P p,
    instructions w !! S = Some s → instructions w !! P = Some p →
    is_Some (getValue (dependencies s) p) →
    contains (invertedDependencies p) s = true.

(** Dependency edges and inverted-dependency edges mirror each other, with
    the objects the collections store: the predecessor stored with an
    entry of [dependencies] has the instruction among its
    [invertedDependencies], and an element stored in [invertedDependencies]
    has an entry in its [dependencies] for the instruction. *)
Definition edges_mirrored (w : Heap) : Prop :=
  (∀ S s k P cs,
     instructions w !! S = Some s → dependencies s !! k = Some (P, cs) →
     ∃ p, instructions w !! P = Some p ∧
          contains (invertedDependencies p) s = true) ∧
  (∀ P p k S,
     instructions w !! P = Some p → invertedDependencies p !! k = Some S →
     ∃ s, instructions w !! S = Some s ∧
          is_Some (getValue (dependencies s) p)).

End instruction.
Arguments ModelData : clear implicits.
Arguments Instruction : clear implicits.
Arguments Heap : clear implicits.

(** *** Two instructions

    Instruction 0 supplies [DataGraph] to instruction 1; each has a
    [ModelData] object of its own. *)
Module Example.

Definition first : Instruction unit :=
  mkInstruction 0 tt 0%nat ∅ {[ 1 := 1%nat ]}.

Definition second : Instruction unit :=
  mkInstruction 1 tt 1%nat {[ 0 := (0%nat, {[ DataGraph ]}) ]} ∅.

Definition heap : Heap Z unit :=
  mkHeap (<[ 0%nat := first ]> (<[ 1%nat := second ]> ∅))
         (<[ 0%nat := <[ DataGraph := 1 ]> (<[ IO := 1 ]> ∅) ]>
          (<[ 1%nat := <[ IO := 2 ]> ∅ ]> ∅))
         2.

End Example.

End TaskInstruction.

Module PriorityGenerator.

(** Modelled from the spec: the class [PriorityGenerator] of
    [priorityPartitionedQueue.ts], which is not among the sources (only its
    tests are).  The state is the four counters of the specification's
    algorithm. *)
Record t : Type := mk {
  hi : Z;
  lo : Z;
  step : Z;
  current : Z
}.

(** Modelled from the spec: a fresh generator has [hi = lo = 0], [step = 1]
    and [current = hi]. *)
Definition new : t := mk 0 0 1 0.

(** Modelled from the spec: [next()] emits [current]; then, if
    [current > hi - step + 1] and [current > lo], [current] goes down by
    one; else [step] grows by one, falls back to 1 when it exceeds
    [hi - lo + 1], and [current] becomes [hi]. *)
Definition next (g : t) : Z * t :=
  let emitted := current g in
  if bool_decide (current g > hi g - step g + 1) && bool_decide (current g > lo g)
  then (emitted, mk (hi g) (lo g) (step g) (current g - 1))
  else
    let step' := step g + 1 in
    let step' := if bool_decide (step' > hi g - lo g + 1) then 1 else step' in
    (emitted, mk (hi g) (lo g) step' (hi g)).

(** Modelled from the spec: [notifyPriorityExists(p)] enlarges the range to
    include [p] and then resets [step] and [current]; a priority already in
    the range changes nothing. *)
Definition notifyPriorityExists (p : Z) (g : t) : t :=
  if bool_decide (p > hi g) || bool_decide (p < lo g)
  then mk (Z.max (hi g) p) (Z.min (lo g) p) 1 (Z.max (hi g) p)
  else g.

(** The results of [n] successive calls of [next()]. *)
Fixpoint nexts (n : nat) (g : t) : list Z * t :=
  match n with
  | O => ([], g)
  | S n' =>
      let '(p, g1) := next g in
      let '(l, g2) := nexts n' g1 in
      (p :: l, g2)
  end.

End PriorityGenerator.

Module Persistence.

Section component.
Context {T : Type}.

(** [Component.ROOT]. *)
Definition ROOT : string := "ROOT".

(** [class Component<T>]: its one field is an [Immutable.Map<string, T>].
    The order in which such a map yields its entries is not fixed by the
    library; here it is the order of [map_to_list], the same for keys and
    values. *)
Record Component : Type := mkComponent {
  parts : gmap string T
}.

(** The constructor; [None] is a call without argument. *)
Definition new (parts : option (gmap string T)) : Component :=
  match parts with
  | Some p => mkComponent p
  | None => mkComponent ∅
  end.

(** [getAllKeys]. *)
Definition getAllKeys (c : Component) : list string :=
  (map_to_list (parts c)).*1.

(** [getPart]: [None] is [undefined], for a key that has no part. *)
Definition getPart (c : Component) (key : string) : option T :=
  parts c !! key.

(** [getRoot]. *)
Definition getRoot (c : Component) : option T := getPart c ROOT.

(** [getParts]. *)
Definition getParts (c : Component) : list T :=
  (map_to_list (parts c)).*2.

(** [getCompositeParts]: the loop over [getAllKeys()] that pushes
    [[k, this.parts.get(k)]] for each key other than [ROOT]. *)
Definition getCompositeParts (c : Component) : list (string * option T) :=
  foldl (λ relevantParts k,
           if decide (k ≠ ROOT)
           then relevantParts ++ [(k, parts c !! k)]
           else relevantParts)
        [] (getAllKeys c).

(** [withPart]. *)
Definition withPart (key : string) (value : T) (c : Component) : Component :=
  new (Some (<[ key := value ]> (parts c))).

(** [withRoot]. *)
Definition withRoot (value : T) (c : Component) : Component :=
  new (Some (<[ ROOT := value ]> (parts c))).

End component.
Arguments Component : clear implicits.

(** A component with a root and two other parts. *)
Module Example.

Definition graphs : Component Z :=
  withPart "b.ttl" 3 (withPart "a.ttl" 2 (withRoot 1 (new None))).

End Example.

End Persistence.

Module ValidationService.
Import TaskInstruction.

Section service.
(** [Validator] is declared in [Validator.d.ts], which is not among the
    sources: the service uses its [getTypesForValidation()], and
    [Collections.Set] files a validator under its string form. *)
Context {Validator : Type}.
Variable toStr : Validator → string.
Variable getTypesForValidation : Validator → list ModelComponent.

(** A [Collections.Set<Validator>] is a map from the string form to the
    element stored. *)

(** [Set.contains]. *)
Definition contains (s : gmap string Validator) (v : Validator) : bool :=
  bool_decide (is_Some (s !! toStr v)).

(** [Set.add]: nothing happens when the set has the key. *)
Definition add (s : gmap string Validator) (v : Validator)
    : gmap string Validator :=
  if contains s v then s else <[ toStr v := v ]> s.

(** [Set.forEach]: the elements, in the order the set yields them. *)
Definition members (s : gmap string Validator) : list Validator :=
  (map_to_list s).*2.

(** [registerValidator], on the field [validators]. *)
Definition registerValidator (validator : Validator)
    (validators : gmap ModelComponent (gmap string Validator))
    : gmap ModelComponent (gmap string Validator) :=
  foldl (λ vs c,
           let relevantSet :=
             match vs !! c with
             | Some s => s
             | None => ∅
             end in
           <[ c := add relevantSet validator ]> vs)
        validators (getTypesForValidation validator).

(** What [ValidationTask.create] hands to [Model.createTask]: the closure
    runs [validator.validate], the read set is the validator's types, the
    write set is the validation report. *)
Record ValidationTask : Type := mkTask {
  validator : Validator;
  reads : list ModelComponent;
  writes : list ModelComponent
}.

Definition create (v : Validator) : ValidationTask :=
  mkTask v (getTypesForValidation v) [ValidationReport].

(** The inner loop of the observer: [validatorSet.forEach]. *)
Definition visitValidators (vs : list Validator)
    (st : list ValidationTask * gmap string Validator)
    : list ValidationTask * gmap string Validator :=
  foldl (λ '(tasks, relevantValidators) v,
           if contains relevantValidators v
           then (tasks, relevantValidators)
           else (tasks ++ [create v], add relevantValidators v))
        st vs.

(** The observer the constructor registers with the model: the tasks for a
    buffer of changed components. *)
Definition onChange (validators : gmap ModelComponent (gmap string Validator))
    (changeBuffer : gset ModelComponent) : list ValidationTask :=
  (foldl (λ st c,
            match validators !! c with
            | Some validatorSet => visitValidators (members validatorSet) st
            | None => st
            end)
         ([], ∅) (elements changeBuffer)).1.

(** The string forms of the validators a list of tasks is for. *)
Definition taskKeys (tasks : list ValidationTask) : list string :=
  (λ t, toStr (validator t)) <$> tasks.

(** What the loops of the observer keep: no two tasks are for one string
    form, [relevantValidators] holds the string forms of the tasks, and
    every task was made by [create]. *)
Definition observer_inv (tasks : list ValidationTask)
    (relevantValidators : gmap string Validator) : Prop :=
  NoDup (taskKeys tasks) ∧
  (∀ key, is_Some (relevantValidators !! key) ↔ key ∈ taskKeys tasks) ∧
  Forall (λ t, t = create (validator t)) tasks.

End service.
Arguments ValidationTask : clear implicits.

(** Validators named by a string, with a list of types. *)
Module Example.

Definition name (v : string * list ModelComponent) : string := v.1.
Definition types (v : string * list ModelComponent) : list ModelComponent := v.2.

Definition shacl : string * list ModelComponent :=
  ("shacl", [DataGraph; SHACLShapesGraph]).
Definition io : string * list ModelComponent := ("io", [IO; DataGraph]).

Definition registry : gmap ModelComponent (gmap string (string * list ModelComponent)) :=
  registerValidator name types io (registerValidator name types shacl ∅).

End Example.

End ValidationService.

(** * Properties of the time capsule *)

Module TimeCapsuleFacts.
Import TimeCapsule.

Section tree_facts.
Context {T : Type}.
Implicit Types (h : gmap ref (Instant T)) (x y a b p root : ref).

Lemma member_lookup h root x n :
  member h root x n →
  ∃ i, h !! x = Some i ∧ generation i = Z.of_nat n.
Proof. destruct 1; eauto. Qed.

Lemma member_depth_unique h root x n m :
  member h root x n → member h root x m → n = m.
Proof.
  intros Hn Hm.
  apply member_lookup in Hn as (i & Hi & Hgi).
  apply member_lookup in Hm as (j & Hj & Hgj).
  rewrite Hi in Hj. injection Hj as <-. lia.
Qed.

Lemma member_parent h root x i p n :
  member h root x n → h !! x = Some i → parent i = Some p →
  ∃ n', n = S n' ∧ member h root p n'.
Proof.
  intros Hm Hx Hp. destruct Hm as [i0 Hi0 Hnone _ | x i0 p0 n Hi0 Hp0 _ Hm'].
  - rewrite Hx in Hi0. injection Hi0 as <-. congruence.
  - rewrite Hx in Hi0. injection Hi0 as <-.
    rewrite Hp in Hp0. injection Hp0 as <-. eauto.
Qed.

Lemma member_zero h root x : member h root x O → x = root.
Proof. by inversion 1. Qed.

Lemma member_succ h root x n :
  member h root x (S n) →
  ∃ i p, h !! x = Some i ∧ parent i = Some p ∧ member h root p n.
Proof. inversion 1; subst; eauto. Qed.

Lemma ancestor_trans h a b x :
  ancestor h a b → ancestor h b x → ancestor h a x.
Proof.
  intros Hab Hbx. induction Hbx as [|x i p Hx Hp _ IH]; [done|].
  eapply ancestor_up; eauto.
Qed.

(** An ancestor is a member of the tree, and not deeper. *)
Lemma ancestor_depth h root a x n :
  member h root x n → ancestor h a x →
  ∃ k, (k ≤ n)%nat ∧ member h root a k.
Proof.
  intros Hm Ha. revert n Hm.
  induction Ha as [|x i p Hx Hp _ IH]; intros n Hm.
  - exists n. split; [lia | done].
  - destruct (member_parent _ _ _ _ _ _ Hm Hx Hp) as (n' & -> & Hm').
    destruct (IH _ Hm') as (k & Hk & Hak). exists k. split; [lia | done].
Qed.

Lemma ancestor_same_depth h root a x n :
  member h root x n → member h root a n → ancestor h a x → a = x.
Proof.
  intros Hx Ha Hanc. destruct Hanc as [|x i p Hi Hp Hanc]; [done|].
  destruct (member_parent _ _ _ _ _ _ Hx Hi Hp) as (n' & -> & Hp').
  destruct (ancestor_depth _ _ _ _ _ Hp' Hanc) as (k & Hk & Hak).
  pose proof (member_depth_unique _ _ _ _ _ Ha Hak). lia.
Qed.

(** A proper ancestor is an ancestor of the parent. *)
Lemma ancestor_of_parent h a x i p :
  ancestor h a x → a ≠ x → h !! x = Some i → parent i = Some p →
  ancestor h a p.
Proof.
  intros Hanc Hne Hi Hp. destruct Hanc as [|x i' p' Hi' Hp' Hanc]; [done|].
  congruence.
Qed.

Lemma ancestor_antisym h root a x n :
  member h root x n → ancestor h a x → ancestor h x a → a = x.
Proof.
  intros Hx Hax Hxa.
  destruct (ancestor_depth _ _ _ _ _ Hx Hax) as (k & Hk & Hak).
  destruct (ancestor_depth _ _ _ _ _ Hak Hxa) as (k' & Hk' & Hxk').
  pose proof (member_depth_unique _ _ _ _ _ Hx Hxk'). subst k'.
  assert (k = n) as -> by lia.
  eapply ancestor_same_depth; eauto.
Qed.

Lemma last_common_ancestor_unique h root x y a a' n :
  member h root x n →
  last_common_ancestor h x y a → last_common_ancestor h x y a' → a = a'.
Proof.
  intros Hx (Hax & Hay & Hlast) (Hax' & Hay' & Hlast').
  destruct (ancestor_depth _ _ _ _ _ Hx Hax') as (k & _ & Hk).
  eapply ancestor_antisym; eauto.
Qed.

Lemma last_common_ancestor_sym h x y a :
  last_common_ancestor h x y a → last_common_ancestor h y x a.
Proof. intros (? & ? & ?). repeat split; auto. Qed.

Lemma path_unique h a x l l' :
  path h a x l → path h a x l' → l = l'.
Proof.
  intros Hl. revert l'. induction Hl as [|x i p l Hne Hi Hp _ IH]; intros l' Hl'.
  - inversion Hl'; subst; [done | congruence].
  - inversion Hl' as [|? i' p' l'' _ Hi' Hp' Hl'']; subst; [congruence|].
    f_equal. apply IH. congruence.
Qed.

Lemma path_allocated h a x l :
  path h a x l → Forall (λ r, is_Some (h !! r)) l.
Proof. induction 1; constructor; eauto. Qed.

(** *** The loops of [findLastCommonAncestor] *)

Lemma deref_member h root x n :
  member h root x n →
  ∃ i, deref h (Some x) = Ret i ∧ h !! x = Some i ∧ generation i = Z.of_nat n.
Proof.
  intros (i & Hi & Hg)%member_lookup. exists i. simpl. by rewrite Hi.
Qed.

Lemma levelFirst_spec h root x y n m fuel :
  member h root x n → member h root y m → (n < fuel)%nat →
  ∃ x', levelFirst fuel h (Some x) (Some y) = Ret (Some x') ∧
        member h root x' (n `min` m) ∧ ancestor h x' x ∧
        ∀ b, ancestor h b x → ancestor h b y → ancestor h b x'.
Proof.
  intros Hx Hy. revert fuel.
  destruct (deref_member _ _ _ _ Hy) as (j & Hdj & Hj & Hgj).
  induction Hx as [i Hi Hnone Hg | x i p n Hi Hp Hg Hm IH]; intros fuel Hfuel.
  - destruct fuel as [|fuel]; [lia|]. cbn [levelFirst].
    unfold deref at 1. rewrite Hi. cbn [obind]. rewrite Hdj. cbn [obind].
    rewrite bool_decide_false by lia.
    exists root. repeat split; auto using ancestor_self.
    rewrite Nat.min_0_l. econstructor; eauto.
  - destruct fuel as [|fuel]; [lia|]. cbn [levelFirst].
    unfold deref at 1. rewrite Hi. cbn [obind]. rewrite Hdj. cbn [obind].
    case_bool_decide as Hcmp.
    + rewrite Hp. destruct (IH fuel) as (x' & Hrun & Hx' & Hanc & Hlast); [lia|].
      exists x'. repeat split; auto.
      * replace (S n `min` m)%nat with (n `min` m)%nat by lia. done.
      * eapply ancestor_up; eauto.
      * intros b Hbx Hby. apply Hlast; [|done].
        apply (ancestor_of_parent h b x i p Hbx); [|done..]. intros ->.
        destruct (ancestor_depth _ _ _ _ _ Hy Hby) as (k & Hk & Hxk).
        assert (member h root x (S n)) as Hxm by (econstructor; eauto).
        pose proof (member_depth_unique _ _ _ _ _ Hxm Hxk). lia.
    + exists x. repeat split; auto using ancestor_self.
      replace (S n `min` m)%nat with (S n) by lia. econstructor; eauto.
Qed.

Lemma levelSecond_spec h root x y n m fuel :
  member h root x n → member h root y m → (n ≤ m)%nat → (m < fuel)%nat →
  ∃ y', levelSecond fuel h (Some x) (Some y) = Ret (Some y') ∧
        member h root y' n ∧ ancestor h y' y ∧
        ∀ b, ancestor h b x → ancestor h b y → ancestor h b y'.
Proof.
  intros Hx Hy. revert fuel.
  destruct (deref_member _ _ _ _ Hx) as (j & Hdj & Hj & Hgj).
  induction Hy as [i Hi Hnone Hg | y i p m Hi Hp Hg Hm IH]; intros fuel Hle Hfuel.
  - destruct fuel as [|fuel]; [lia|]. cbn [levelSecond].
    unfold deref at 1. rewrite Hi. cbn [obind]. rewrite Hdj. cbn [obind].
    rewrite bool_decide_false by lia.
    exists root. repeat split; auto using ancestor_self.
    assert (n = O) as -> by lia. econstructor; eauto.
  - destruct fuel as [|fuel]; [lia|]. cbn [levelSecond].
    unfold deref at 1. rewrite Hi. cbn [obind]. rewrite Hdj. cbn [obind].
    case_bool_decide as Hcmp.
    + rewrite Hp. destruct (IH fuel) as (y' & Hrun & Hy' & Hanc & Hlast); [lia..|].
      exists y'. repeat split; auto.
      * eapply ancestor_up; eauto.
      * intros b Hbx Hby. apply Hlast; [done|].
        apply (ancestor_of_parent h b y i p Hby); [|done..]. intros ->.
        destruct (ancestor_depth _ _ _ _ _ Hx Hbx) as (k & Hk & Hyk).
        assert (member h root y (S m)) as Hym by (econstructor; eauto).
        pose proof (member_depth_unique _ _ _ _ _ Hym Hyk). lia.
    + exists y. repeat split; auto using ancestor_self.
      assert (n = S m) as -> by lia. econstructor; eauto.
Qed.

Lemma lockstep_spec h root n : ∀ x y fuel,
  member h root x n → member h root y n → (n < fuel)%nat →
  ∃ a, lockstep fuel h (Some x) (Some y) = Ret (Some a) ∧
       last_common_ancestor h x y a.
Proof.
  induction n as [|n IH]; intros x y fuel Hx Hy Hfuel;
    (destruct fuel as [|fuel]; [lia|]); cbn [lockstep].
  - apply member_zero in Hx as ->. apply member_zero in Hy as ->.
    rewrite decide_True by done. exists root.
    repeat split; auto using ancestor_self.
  - destruct (decide (Some x = Some y)) as [[= ->]|Hne].
    { exists y. repeat split; auto using ancestor_self. }
    destruct (member_succ _ _ _ _ Hx) as (i & p & Hi & Hp & Hpm).
    destruct (member_succ _ _ _ _ Hy) as (j & q & Hj & Hq & Hqm).
    cbn [deref]. rewrite Hi, Hj. cbn [obind]. rewrite Hp, Hq.
    destruct (IH p q fuel) as (a & Hrun & Hap & Haq & Hlast); [done..|lia|].
    exists a. split; [done|]. split; [|split].
    + eapply ancestor_up; eauto.
    + eapply ancestor_up; eauto.
    + intros b Hbx Hby. apply Hlast.
      * apply (ancestor_of_parent h b x i p Hbx); [|done..]. intros ->.
        destruct Hne. f_equal.
        apply (ancestor_same_depth h root x y (S n)); done.
      * apply (ancestor_of_parent h b y j q Hby); [|done..]. intros ->.
        destruct Hne. f_equal. symmetry.
        apply (ancestor_same_depth h root y x (S n)); done.
Qed.

Lemma findLastCommonAncestor_spec h root x y n m fuel :
  member h root x n → member h root y m → (n < fuel)%nat → (m < fuel)%nat →
  ∃ a, findLastCommonAncestor fuel h (Some x) (Some y) = Ret (Some a) ∧
       last_common_ancestor h x y a.
Proof.
  intros Hx Hy Hn Hm. unfold findLastCommonAncestor.
  destruct (levelFirst_spec h root x y n m fuel) as (x' & -> & Hx' & Hxx & Hl1);
    [done..|].
  cbn [obind].
  destruct (levelSecond_spec h root x' y (n `min` m) m fuel)
    as (y' & -> & Hy' & Hyy & Hl2); [done | done | lia | done |].
  cbn [obind].
  destruct (lockstep_spec h root (n `min` m) x' y' fuel)
    as (a & -> & Hax & Hay & Hl3); [done | done | lia |].
  exists a. split; [done|]. split; [|split].
  - by apply (ancestor_trans h a x' x).
  - by apply (ancestor_trans h a y' y).
  - intros b Hbx Hby. apply Hl3; auto.
Qed.

(** *** [pathToAncestor] and the replay loops *)

Lemma pathLoop_spec h root a x :
  ancestor h a x → ∀ n fuel acc,
  member h root x n → (n < fuel)%nat →
  ∃ l, pathLoop fuel h (Some x) (Some a) acc = Ret (acc ++ l) ∧ path h a x l.
Proof.
  induction 1 as [|x i p Hi Hp Hanc IH]; intros n fuel acc Hm Hfuel;
    (destruct fuel as [|fuel]; [lia|]); cbn [pathLoop].
  - rewrite decide_True by done. exists []. rewrite app_nil_r.
    split; [done | constructor].
  - destruct (member_parent _ _ _ _ _ _ Hm Hi Hp) as (n' & -> & Hpm).
    assert (x ≠ a) as Hne.
    { intros ->. destruct (ancestor_depth _ _ _ _ _ Hpm Hanc) as (k & Hk & Hak).
      pose proof (member_depth_unique _ _ _ _ _ Hm Hak). lia. }
    rewrite decide_False by congruence.
    cbn [deref]. rewrite Hi. cbn [obind]. rewrite Hp.
    destruct (IH n' fuel (acc ++ [x]) Hpm) as (l & -> & Hl); [lia|].
    exists (x :: l). rewrite <- app_assoc. split; [done|].
    econstructor; eauto.
Qed.

Lemma pathToAncestor_spec h root a x n fuel :
  ancestor h a x → member h root x n → (n < fuel)%nat →
  ∃ l, pathToAncestor fuel h x (Some a) = Ret l ∧ path h a x l.
Proof.
  intros Hanc Hm Hfuel. unfold pathToAncestor.
  destruct (pathLoop_spec h root a x Hanc n fuel [] Hm Hfuel) as (l & ? & ?).
  eauto.
Qed.

Lemma forOf_undo_spec h l : ∀ d,
  quiet h → Forall (λ r, is_Some (h !! r)) l →
  forOf h undoChange l d = (Ret tt, apply_all (changes h undone l) d).
Proof.
  induction l as [|r l IH]; intros d Hq Hall; [done|].
  apply Forall_cons in Hall as [[i Hi] Hall].
  cbn [forOf deref]. rewrite Hi.
  destruct (Hq r i d Hi) as [Hu _].
  assert (undoChange i d = (Ret tt, undone i d)) as ->.
  { unfold undone. destruct (undoChange i d) as [o d']. cbn in *. by subst. }
  rewrite IH by done.
  unfold changes. simpl. rewrite Hi. done.
Qed.

Lemma forOf_redo_spec h l : ∀ d,
  quiet h → Forall (λ r, is_Some (h !! r)) l →
  forOf h redoChange l d = (Ret tt, apply_all (changes h redone l) d).
Proof.
  induction l as [|r l IH]; intros d Hq Hall; [done|].
  apply Forall_cons in Hall as [[i Hi] Hall].
  cbn [forOf deref]. rewrite Hi.
  destruct (Hq r i d Hi) as [_ Hr].
  assert (redoChange i d = (Ret tt, redone i d)) as ->.
  { unfold redone. destruct (redoChange i d) as [o d']. cbn in *. by subst. }
  rewrite IH by done.
  unfold changes. simpl. rewrite Hi. done.
Qed.

(** A loop over allocated instants ends when every call in it does. *)
Lemma forOf_ends h change l : ∀ d,
  (∀ r i d', h !! r = Some i → (change i d').1 ≠ Timeout) →
  Forall (λ r, is_Some (h !! r)) l →
  (forOf h change l d).1 ≠ Timeout.
Proof.
  induction l as [|r l IH]; intros d Hend Hall; [done|].
  apply Forall_cons in Hall as [[i Hi] Hall].
  cbn [forOf deref]. rewrite Hi.
  pose proof (Hend r i d Hi) as He.
  destruct (change i d) as [[[]|e|] d'] eqn:E; cbn in He; try done.
  by apply IH.
Qed.

Lemma replay_quiet h pu pr d :
  quiet h →
  Forall (λ r, is_Some (h !! r)) pu → Forall (λ r, is_Some (h !! r)) pr →
  replay h pu pr d =
    (Ret tt, apply_all (changes h redone (rev pr))
               (apply_all (changes h undone pu) d)).
Proof.
  intros Hq Hpu Hpr. unfold replay.
  rewrite forOf_undo_spec by done.
  by rewrite forOf_redo_spec by (try apply Forall_rev; done).
Qed.

Lemma replay_ends h pu pr d :
  ending h →
  Forall (λ r, is_Some (h !! r)) pu → Forall (λ r, is_Some (h !! r)) pr →
  (replay h pu pr d).1 ≠ Timeout.
Proof.
  intros Hend Hpu Hpr. unfold replay.
  pose proof (forOf_ends h undoChange pu d
                (λ r i d' Hi, proj1 (Hend r i d' Hi)) Hpu) as Hu.
  destruct (forOf h undoChange pu d) as [[[]|e|] d1]; cbn in Hu; try done.
  apply forOf_ends; [|by apply Forall_rev].
  intros r i d' Hi. apply (Hend r i d' Hi).
Qed.

Lemma changes_app h change l1 l2 :
  changes h change (l1 ++ l2) = changes h change l1 ++ changes h change l2.
Proof. apply omap_app. Qed.

Lemma apply_all_app (fs gs : list (T → T)) (d : T) :
  apply_all (fs ++ gs) d = apply_all gs (apply_all fs d).
Proof. apply foldl_app. Qed.

(** [acquire] on an instant other than the current one, on a capsule that
    is not acquired: what the replay along the two paths gives. *)
Lemma acquire_elsewhere_replay (w : Store T) root x c n m fuel :
  member (instants w) root x n →
  currentInstant (state w) = Some c →
  member (instants w) root c m →
  (n < fuel)%nat → (m < fuel)%nat →
  c ≠ x → acquisitionCount (state w) ≤ 0 →
  ∃ a pu pr,
    last_common_ancestor (instants w) x c a ∧
    path (instants w) a c pu ∧ path (instants w) a x pr ∧
    acquire fuel x w =
      match replay (instants w) pu pr (data (state w)) with
      | (Ret _, d') =>
          (Ret d', mkStore (instants w)
                     (mkState d' (Some x) (acquisitionCount (state w) + 1)))
      | (Throw e, d') => (Throw e, with_data d' w)
      | (Timeout, d') => (Timeout, with_data d' w)
      end.
Proof.
  intros Hx Hcur Hc Hn Hm Hne Hcount.
  destruct (findLastCommonAncestor_spec _ _ _ _ _ _ fuel Hx Hc Hn Hm)
    as (a & Hrun & Hlca).
  pose proof Hlca as (Hax & Hac & _).
  destruct (pathToAncestor_spec _ _ _ _ _ fuel Hac Hc Hm) as (pu & Hpu & Hpath_u).
  destruct (pathToAncestor_spec _ _ _ _ _ fuel Hax Hx Hn) as (pr & Hpr & Hpath_r).
  exists a, pu, pr. repeat (split; [done|]).
  unfold acquire, replay. rewrite Hcur.
  rewrite decide_False by congruence.
  rewrite bool_decide_false by lia.
  rewrite Hrun, Hpu.
  destruct (forOf (instants w) undoChange pu (data (state w)))
    as [[[]|e|] d1]; [|done..].
  rewrite Hpr.
  destruct (forOf (instants w) redoChange (rev pr) d1) as [[[]|e|] d2]; done.
Qed.

Lemma acquire_elsewhere_spec (w : Store T) root x c n m fuel :
  quiet (instants w) →
  member (instants w) root x n →
  currentInstant (state w) = Some c →
  member (instants w) root c m →
  (n < fuel)%nat → (m < fuel)%nat →
  c ≠ x → acquisitionCount (state w) ≤ 0 →
  ∃ a pu pr,
    last_common_ancestor (instants w) x c a ∧
    path (instants w) a c pu ∧ path (instants w) a x pr ∧
    let d' := apply_all (changes (instants w) redone (rev pr))
                (apply_all (changes (instants w) undone pu) (data (state w))) in
    acquire fuel x w =
      (Ret d', mkStore (instants w)
                 (mkState d' (Some x) (acquisitionCount (state w) + 1))).
Proof.
  intros Hq Hx Hcur Hc Hn Hm Hne Hcount.
  destruct (acquire_elsewhere_replay w root x c n m fuel)
    as (a & pu & pr & Hlca & Hpu & Hpr & Hrun); [done..|].
  exists a, pu, pr. repeat (split; [done|]).
  rewrite Hrun, replay_quiet by eauto using path_allocated. done.
Qed.

Lemma acquire_same_spec (w : Store T) x fuel :
  currentInstant (state w) = Some x →
  acquire fuel x w =
    (Ret (data (state w)),
     mkStore (instants w)
       (mkState (data (state w)) (Some x) (acquisitionCount (state w) + 1))).
Proof.
  intros Hcur. unfold acquire. rewrite decide_True by done.
  unfold with_acquisitionCount. by rewrite Hcur.
Qed.

(** Whenever [acquire] returns, the state is at [x], acquired once more. *)
Lemma acquire_returns (w w' : Store T) x d fuel :
  acquire fuel x w = (Ret d, w') →
  instants w' = instants w ∧ data (state w') = d ∧
  currentInstant (state w') = Some x ∧
  acquisitionCount (state w') = acquisitionCount (state w) + 1.
Proof.
  unfold acquire. intros Hrun.
  repeat case_match; simplify_eq; cbn; auto.
Qed.

Lemma acquire_moves (w : Store T) root x c n m fuel :
  quiet (instants w) →
  member (instants w) root x n →
  currentInstant (state w) = Some c →
  member (instants w) root c m →
  (n < fuel)%nat → (m < fuel)%nat →
  acquisitionCount (state w) = 0 →
  ∃ d', moved (instants w) c x (data (state w)) d' ∧
        acquire fuel x w =
          (Ret d', mkStore (instants w) (mkState d' (Some x) 1)).
Proof.
  intros Hq Hx Hcur Hc Hn Hm Hcount.
  destruct (decide (c = x)) as [->|Hne].
  - exists (data (state w)). split; [by left|].
    rewrite acquire_same_spec by done. by rewrite Hcount.
  - destruct (acquire_elsewhere_spec w root x c n m fuel)
      as (a & pu & pr & Hlca & Hpu & Hpr & Hrun); [done..|lia|].
    eexists. split; [|rewrite Hrun, Hcount; done].
    right. split; [done|]. exists a, pu, pr. done.
Qed.

(** *** Undoing and redoing along one path cancel *)

Lemma changes_cons h change r l :
  changes h change (r :: l) =
    match h !! r with
    | Some i => change i :: changes h change l
    | None => changes h change l
    end.
Proof. unfold changes. simpl. by destruct (h !! r). Qed.

Lemma changes_nil h change : changes h change [] = [].
Proof. done. Qed.

Lemma apply_all_nil (d : T) : apply_all [] d = d.
Proof. done. Qed.

Lemma apply_all_cons (f : T → T) (fs : list (T → T)) (d : T) :
  apply_all (f :: fs) d = apply_all fs (f d).
Proof. done. Qed.

Lemma undo_redo_cancel h l : ∀ d,
  inverses h →
  apply_all (changes h undone l)
    (apply_all (changes h redone (rev l)) d) = d.
Proof.
  induction l as [|r l IH]; intros d Hinv; [done|].
  cbn [rev]. rewrite changes_app, apply_all_app, !changes_cons.
  destruct (h !! r) as [i|] eqn:Hi.
  - rewrite !apply_all_cons, changes_nil, apply_all_nil.
    destruct (Hinv r i Hi) as [-> _]. by apply IH.
  - rewrite changes_nil, apply_all_nil. by apply IH.
Qed.

Lemma redo_undo_cancel h l : ∀ d,
  inverses h →
  apply_all (changes h redone (rev l))
    (apply_all (changes h undone l) d) = d.
Proof.
  induction l as [|r l IH]; intros d Hinv; [done|].
  cbn [rev]. rewrite changes_app, apply_all_app, !changes_cons.
  destruct (h !! r) as [i|] eqn:Hi.
  - rewrite !apply_all_cons, IH, changes_nil, apply_all_nil by done.
    by destruct (Hinv r i Hi) as [_ ->].
  - rewrite IH, changes_nil, apply_all_nil by done. done.
Qed.

Lemma moved_back h root x y n (d1 d2 d3 : T) :
  member h root x n → inverses h →
  moved h x y d1 d2 → moved h y x d2 d3 → d3 = d1.
Proof.
  intros Hx Hinv [[-> ->]|(Hne & a & pu & pr & Hlca & Hpu & Hpr & ->)]
    [[Heq ->]|(Hne' & a' & pu' & pr' & Hlca' & Hpu' & Hpr' & ->)];
    try done.
  apply last_common_ancestor_sym in Hlca.
  pose proof (last_common_ancestor_unique _ _ _ _ _ _ _ Hx Hlca Hlca') as <-.
  rewrite (path_unique _ _ _ _ _ Hpu' Hpr), (path_unique _ _ _ _ _ Hpr' Hpu).
  rewrite undo_redo_cancel by done. by apply redo_undo_cancel.
Qed.

(** *** The invariant of a capsule *)

Lemma member_insert_fresh h root x n r (i : Instant T) :
  h !! r = None → member h root x n → member (<[ r := i ]> h) root x n.
Proof.
  intros Hr. induction 1 as [j Hj Hnone Hg | x j p n Hj Hp Hg _ IH].
  - eapply member_root; eauto. rewrite lookup_insert_ne; [done | congruence].
  - eapply member_child; eauto. rewrite lookup_insert_ne; [done | congruence].
Qed.

Lemma create_ok (d : T) : capsule_ok (create d).1 (create d).2.
Proof.
  unfold create. cbn [fst snd]. set (root := fresh (∅ : gset ref)).
  split; cbn.
  - intros x [i Hi]. apply lookup_singleton_Some in Hi as [<- <-].
    exists O. eapply member_root; [apply lookup_singleton_eq | done..].
  - exists root. split; [done|]. rewrite lookup_singleton_eq. eauto.
  - lia.
Qed.

Lemma modify_ok root (w : Store T) this doChange undo' :
  capsule_ok root w → is_Some (instants w !! this) →
  ∃ r n, modify this doChange undo' w =
           (Ret r, mkStore (<[ r := mkInstant (Some this) undo' doChange
                                    (Z.of_nat (S n)) ]> (instants w)) (state w)) ∧
         instants w !! r = None ∧
         member (instants w) root this n ∧
         capsule_ok root (modify this doChange undo' w).2.
Proof.
  intros [Hmem (c & Hc & Hcin) Hcount] Hthis.
  destruct (Hmem this Hthis) as (n & Hn).
  destruct (member_lookup _ _ _ _ Hn) as (i & Hi & Hg).
  set (r := fresh (dom (instants w))).
  assert (instants w !! r = None) as Hfresh.
  { apply not_elem_of_dom. apply is_fresh. }
  exists r, n. unfold modify. cbn [deref]. rewrite Hi. fold r. cbn [snd].
  replace (generation i + 1) with (Z.of_nat (S n)) by lia.
  repeat split; try done; cbn.
  - intros x [j Hj]. destruct (decide (x = r)) as [->|Hne].
    + exists (S n). eapply member_child.
      * apply lookup_insert_eq.
      * done.
      * done.
      * by apply member_insert_fresh.
    + rewrite lookup_insert_ne in Hj by done.
      destruct (Hmem x) as (k & Hk); [eauto|].
      exists k. by apply member_insert_fresh.
  - exists c. split; [done|]. destruct Hcin as [j Hj].
    rewrite lookup_insert_ne; [eauto | congruence].
Qed.

Lemma acquire_ok root (w : Store T) x fuel :
  capsule_ok root w → is_Some (instants w !! x) →
  capsule_ok root (acquire fuel x w).2.
Proof.
  intros [Hmem (c & Hc & Hcin) Hcount] Hx.
  unfold acquire.
  repeat case_match; simplify_eq; cbn;
    (split; cbn; [done | eauto | lia]).
Qed.

Lemma release_ok root (w : Store T) x :
  capsule_ok root w → capsule_ok root (release x w).2.
Proof.
  intros [Hmem (c & Hc & Hcin) Hcount]. unfold release.
  repeat case_match; simplify_eq; cbn; (split; cbn; [done | eauto | lia]).
Qed.

End tree_facts.

(** *** The example capsule *)

Lemma example_member_0 : member Example.tree 0%nat 0%nat 0%nat.
Proof. eapply member_root; reflexivity. Qed.

Lemma example_member_1 : member Example.tree 0%nat 1%nat 1%nat.
Proof. eapply member_child; [reflexivity.. | apply example_member_0]. Qed.

Lemma example_member_2 : member Example.tree 0%nat 2%nat 2%nat.
Proof. eapply member_child; [reflexivity.. | apply example_member_1]. Qed.

Lemma example_member_3 : member Example.tree 0%nat 3%nat 1%nat.
Proof. eapply member_child; [reflexivity.. | apply example_member_0]. Qed.

Lemma example_inverses : inverses Example.tree.
Proof.
  intros r i Hi. unfold Example.tree in Hi.
  repeat (apply lookup_insert_Some in Hi as [[<- <-]|[_ Hi]];
          [unfold undone, redone; cbn; split; intros; lia|]).
  by rewrite lookup_empty in Hi.
Qed.

Lemma example_faulty_member_2 : member Example.faulty_tree 0%nat 2%nat 2%nat.
Proof. apply member_insert_fresh; [reflexivity | apply example_member_2]. Qed.

Lemma example_faulty_member_4 : member Example.faulty_tree 0%nat 4%nat 1%nat.
Proof.
  eapply member_child; [reflexivity.. |].
  apply member_insert_fresh; [reflexivity | apply example_member_0].
Qed.

Lemma example_quiet : quiet Example.tree.
Proof.
  intros r i d Hi. unfold Example.tree in Hi.
  repeat (apply lookup_insert_Some in Hi as [[<- <-]|[_ Hi]]; [done|]).
  by rewrite lookup_empty in Hi.
Qed.

Example example_acquire_3 :
  acquire 3 3%nat Example.at2 =
    (Ret 100, mkStore Example.tree (mkState 100 (Some 3%nat) 1)).
Proof. vm_compute. reflexivity. Qed.

Example example_acquire_held :
  fst (acquire 3 3%nat Example.at2_held) = Throw already_acquired.
Proof. vm_compute. reflexivity. Qed.

(** The redo of instant 4 raises after the undos of instants 2 and 1 have
    run: the data is left at the root's, the capsule still at instant 2. *)
Example example_acquire_faulty :
  acquire 3 4%nat Example.faulty_at2 =
    (Throw (Error "redo failed"),
     mkStore Example.faulty_tree (mkState 0 (Some 2%nat) 0)).
Proof. vm_compute. reflexivity. Qed.

(** *** The operations of the time capsule *)

Section capsule_facts.
Context {T : Type}.

(** What [query] does once [acquire] has returned: when [func] returns,
    [query] releases and returns [func]'s result, and the acquisition count
    is the one before the call; when [func] raises, the error leaves
    [query] before [release] is reached. *)
Lemma query_releases_when_func_returns {R : Type} (w w1 : Store T) x fuel
    (func : T → outcome R * T) d :
  0 ≤ acquisitionCount (state w) →
  acquire fuel x w = (Ret d, w1) →
  (∀ r d', func d = (Ret r, d') →
     query fuel x func w =
       (Ret r, mkStore (instants w)
                 (mkState d' (Some x) (acquisitionCount (state w))))) ∧
  (∀ e d', func d = (Throw e, d') →
     query fuel x func w =
       (Throw e, mkStore (instants w)
                   (mkState d' (Some x) (acquisitionCount (state w) + 1)))).
Proof.
  intros Hcount Hacq.
  destruct (acquire_returns _ _ _ _ _ Hacq) as (Hh & Hd & Hcur & Hcnt).
  split.
  - intros r d' Hf. unfold query. rewrite Hacq, Hf.
    unfold release, with_data, with_acquisitionCount. cbn.
    rewrite Hcur, Hcnt, Hh.
    rewrite decide_False by lia. rewrite decide_True by done.
    do 3 f_equal. lia.
  - intros e d' Hf. unfold query. rewrite Hacq, Hf.
    unfold with_data. by rewrite Hcur, Hcnt, Hh.
Qed.

(** C3: for an instant [x] other than the current instant [c], with
    acquisition count zero, [acquire] finds the last common ancestor [a] of
    [x] and [c], applies the undos of the instants from [c] up to [a],
    nearest first, then the redos of the instants from [x] up to [a] in
    reverse, makes [x] the current instant and adds one to the acquisition
    count. *)
Theorem acquire_replays_changes (w : Store T) root x c n m fuel :
  member (instants w) root x n →
  currentInstant (state w) = Some c →
  member (instants w) root c m →
  (n < fuel)%nat → (m < fuel)%nat →
  c ≠ x → acquisitionCount (state w) = 0 →
  quiet (instants w) →
  ∃ a pu pr,
    findLastCommonAncestor fuel (instants w) (Some x) (Some c) = Ret (Some a) ∧
    last_common_ancestor (instants w) x c a ∧
    path (instants w) a c pu ∧ path (instants w) a x pr ∧
    let d' := apply_all (changes (instants w) redone (rev pr))
                (apply_all (changes (instants w) undone pu) (data (state w))) in
    acquire fuel x w =
      (Ret d', mkStore (instants w)
                 (mkState d' (Some x) (acquisitionCount (state w) + 1))).
Proof.
  intros Hx Hcur Hc Hn Hm Hne Hcount Hq.
  destruct (acquire_elsewhere_spec w root x c n m fuel)
    as (a & pu & pr & Hlca & Hpu & Hpr & Hrun); [done..|lia|].
  destruct (findLastCommonAncestor_spec _ _ _ _ _ _ fuel Hx Hc Hn Hm)
    as (a' & Hfind & Hlca').
  pose proof (last_common_ancestor_unique _ _ _ _ _ _ _ Hx Hlca Hlca') as <-.
  exists a, pu, pr. done.
Qed.

(** C4, as amended: [acquire] on [x] raises an error exactly when the
    current instant is another one and either the acquisition count is not
    zero or an undo or redo of the replay raises; so, when no undo and no
    redo raises, exactly when the current instant is another one and the
    acquisition count is not zero.  When the current instant is [x], it
    adds one to the acquisition count and returns the shared data as it is,
    the current instant staying [x]. *)
Theorem acquire_raises_iff (w : Store T) root x c n m fuel :
  member (instants w) root x n →
  currentInstant (state w) = Some c →
  member (instants w) root c m →
  (n < fuel)%nat → (m < fuel)%nat →
  0 ≤ acquisitionCount (state w) →
  (∃ a pu pr,
     last_common_ancestor (instants w) x c a ∧
     path (instants w) a c pu ∧ path (instants w) a x pr ∧
     (raises (acquire fuel x w).1 ↔
        c ≠ x ∧
        (acquisitionCount (state w) ≠ 0 ∨
         raises (replay (instants w) pu pr (data (state w))).1))) ∧
  (quiet (instants w) →
   (raises (acquire fuel x w).1 ↔ c ≠ x ∧ acquisitionCount (state w) ≠ 0)) ∧
  (c = x →
   acquire fuel x w =
     (Ret (data (state w)),
      mkStore (instants w)
        (mkState (data (state w)) (Some x) (acquisitionCount (state w) + 1)))).
Proof.
  intros Hx Hcur Hc Hn Hm Hcount. split_and!.
  - destruct (findLastCommonAncestor_spec _ _ _ _ _ _ fuel Hx Hc Hn Hm)
      as (a & _ & Hlca).
    pose proof Hlca as (Hax & Hac & _).
    destruct (pathToAncestor_spec _ _ _ _ _ fuel Hac Hc Hm) as (pu & _ & Hpu).
    destruct (pathToAncestor_spec _ _ _ _ _ fuel Hax Hx Hn) as (pr & _ & Hpr).
    exists a, pu, pr. split_and!; [done..|].
    destruct (decide (c = x)) as [->|Hne].
    { rewrite acquire_same_spec by done. cbn. split.
      - intros [e He]. discriminate.
      - intros [? _]. done. }
    destruct (decide (acquisitionCount (state w) = 0)) as [Hz|Hnz].
    + destruct (acquire_elsewhere_replay w root x c n m fuel)
        as (a' & pu' & pr' & Hlca' & Hpu' & Hpr' & Hrun); [done..|lia|].
      pose proof (last_common_ancestor_unique _ _ _ _ _ _ _ Hx Hlca' Hlca) as ->.
      rewrite (path_unique _ _ _ _ _ Hpu' Hpu) in Hrun.
      rewrite (path_unique _ _ _ _ _ Hpr' Hpr) in Hrun.
      rewrite Hrun.
      destruct (replay (instants w) pu pr (data (state w))) as [[[]|e|] d'];
        cbn; split.
      * intros [e He]. discriminate.
      * intros [_ [?|[e He]]]; [done | discriminate].
      * intros _. split; [done|]. right. by eexists.
      * intros _. by eexists.
      * intros [e He]. discriminate.
      * intros [_ [?|[e He]]]; [done | discriminate].
    + unfold acquire. rewrite Hcur. rewrite decide_False by congruence.
      rewrite bool_decide_true by lia. cbn. split.
      * intros _. split; [done|]. by left.
      * intros _. by eexists.
  - intros Hq. destruct (decide (c = x)) as [->|Hne].
    { rewrite acquire_same_spec by done. cbn. split.
      - intros [e He]. discriminate.
      - intros [? _]. done. }
    destruct (decide (acquisitionCount (state w) = 0)) as [Hz|Hnz].
    + destruct (acquire_elsewhere_spec w root x c n m fuel)
        as (a & pu & pr & _ & _ & _ & Hrun); [done..|lia|].
      cbn zeta in Hrun. rewrite Hrun. cbn. split.
      * intros [e He]. discriminate.
      * intros [_ ?]. done.
    + unfold acquire. rewrite Hcur. rewrite decide_False by congruence.
      rewrite bool_decide_true by lia. cbn. split; [done|].
      intros _. by eexists.
  - intros ->. by apply acquire_same_spec.
Qed.

(** C5: [release] on [x] raises an error exactly when the acquisition
    count is zero or the current instant is not [x]; otherwise it takes one
    from the acquisition count and leaves the data and the current instant
    as they are. *)
Theorem release_raises_iff (w : Store T) x :
  (raises (release x w).1 ↔
     acquisitionCount (state w) = 0 ∨ currentInstant (state w) ≠ Some x) ∧
  (acquisitionCount (state w) ≠ 0 → currentInstant (state w) = Some x →
   release x w =
     (Ret tt,
      mkStore (instants w)
        (mkState (data (state w)) (currentInstant (state w))
                 (acquisitionCount (state w) - 1)))).
Proof.
  unfold release. split.
  - destruct (decide (acquisitionCount (state w) = 0)) as [Hz|Hnz]; cbn.
    { split; [auto | intros _; by eexists]. }
    destruct (decide (currentInstant (state w) = Some x)) as [Hc|Hc]; cbn.
    + split; [intros [e He]; discriminate | intros [?|?]; done].
    + split; [auto | intros _; by eexists].
  - intros Hnz Hc. rewrite decide_False by done. by rewrite decide_True.
Qed.

(** C6: when every instant's undo is the inverse of its redo and nothing
    else touches the data, acquire [x], release, acquire [y], release,
    acquire [x] all succeed, and the last acquire yields the data the first
    one yielded. *)
Theorem acquire_round_trip (w : Store T) root x y c n m k fuel :
  member (instants w) root x n →
  member (instants w) root y m →
  currentInstant (state w) = Some c →
  member (instants w) root c k →
  (n < fuel)%nat → (m < fuel)%nat → (k < fuel)%nat →
  acquisitionCount (state w) = 0 →
  inverses (instants w) →
  quiet (instants w) →
  ∃ d1 w1 w2 d2 w3 w4 d3 w5,
    acquire fuel x w = (Ret d1, w1) ∧
    release x w1 = (Ret tt, w2) ∧
    acquire fuel y w2 = (Ret d2, w3) ∧
    release y w3 = (Ret tt, w4) ∧
    acquire fuel x w4 = (Ret d3, w5) ∧
    d3 = d1.
Proof.
  intros Hx Hy Hcur Hc Hn Hm Hk Hcount Hinv Hq.
  destruct (acquire_moves w root x c n k fuel) as (d1 & _ & Hrun1); [done..|].
  set (h := instants w) in *.
  set (w2 := mkStore h (mkState d1 (Some x) 0)).
  destruct (acquire_moves w2 root y x m n fuel) as (d2 & Hmv2 & Hrun2); [done..|].
  set (w4 := mkStore h (mkState d2 (Some y) 0)).
  destruct (acquire_moves w4 root x y n m fuel) as (d3 & Hmv3 & Hrun3); [done..|].
  exists d1, (mkStore h (mkState d1 (Some x) 1)), w2,
         d2, (mkStore h (mkState d2 (Some y) 1)), w4,
         d3, (mkStore h (mkState d3 (Some x) 1)).
  cbn in Hmv2, Hmv3, Hrun2, Hrun3. subst h.
  split_and!.
  - done.
  - unfold release. cbn. rewrite decide_False by lia. by rewrite decide_True.
  - done.
  - unfold release. cbn. rewrite decide_False by lia. by rewrite decide_True.
  - done.
  - by apply (moved_back (instants w) root x y n d1 d2 d3).
Qed.

(** C10: for two instants of one capsule, [findLastCommonAncestor] comes
    to an end and returns a common ancestor of both, and so [acquire] comes
    to an end for every instant of the capsule, as long as the undos and
    redos it calls do. *)
Theorem findLastCommonAncestor_terminates (w : Store T) root x y n m fuel :
  member (instants w) root x n →
  member (instants w) root y m →
  (n < fuel)%nat → (m < fuel)%nat →
  (∃ a, findLastCommonAncestor fuel (instants w) (Some x) (Some y) = Ret (Some a) ∧
        ancestor (instants w) a x ∧ ancestor (instants w) a y) ∧
  (ending (instants w) →
   currentInstant (state w) = Some y → (acquire fuel x w).1 ≠ Timeout).
Proof.
  intros Hx Hy Hn Hm. split.
  - destruct (findLastCommonAncestor_spec _ _ _ _ _ _ fuel Hx Hy Hn Hm)
      as (a & Hrun & Hax & Hay & _).
    eauto.
  - intros Hend Hcur. destruct (decide (y = x)) as [->|Hne].
    { by rewrite acquire_same_spec. }
    destruct (decide (acquisitionCount (state w) ≤ 0)) as [Hz|Hnz].
    + destruct (acquire_elsewhere_replay w root x y n m fuel)
        as (a & pu & pr & _ & Hpu & Hpr & Hrun); [done..|].
      rewrite Hrun.
      pose proof (replay_ends (instants w) pu pr (data (state w)) Hend
                    (path_allocated _ _ _ _ Hpu) (path_allocated _ _ _ _ Hpr))
        as He.
      by destruct (replay (instants w) pu pr (data (state w))) as [[[]|e|] d'].
    + unfold acquire. rewrite Hcur. rewrite decide_False by congruence.
      by rewrite bool_decide_true by lia.
Qed.

End capsule_facts.

(** *** The claims at the example capsule *)

Lemma query_releases_when_func_returns_witness :
  query 3 3%nat Example.reading Example.at2 =
    (Ret 100, mkStore Example.tree (mkState 100 (Some 3%nat) 0)).
Proof.
  refine (proj1 (query_releases_when_func_returns Example.at2
            (mkStore Example.tree (mkState 100 (Some 3%nat) 1))
            3%nat 3 Example.reading 100 _ _) 100 100 _).
  - cbn. lia.
  - vm_compute. reflexivity.
  - reflexivity.
Defined.

(** C1 does not hold of the code: [query] has no [finally] around the
    call of [func], so when [func] raises, [release] is not reached and the
    acquisition count after the call is not the one before it. *)
Lemma query_no_release_when_func_raises :
  ∃ e w',
    query 3 3%nat Example.failing Example.at2 = (Throw e, w') ∧
    acquisitionCount (state w') ≠ acquisitionCount (state Example.at2).
Proof.
  exists (Error "failure"), (mkStore Example.tree (mkState 100 (Some 3%nat) 1)).
  split; [vm_compute; reflexivity | cbn; lia].
Qed.

Lemma acquire_replays_changes_witness :
  ∃ a pu pr,
    findLastCommonAncestor 3 Example.tree (Some 3%nat) (Some 2%nat) = Ret (Some a) ∧
    last_common_ancestor Example.tree 3%nat 2%nat a ∧
    path Example.tree a 2%nat pu ∧ path Example.tree a 3%nat pr ∧
    acquire 3 3%nat Example.at2 =
      (Ret (apply_all (changes Example.tree redone (rev pr))
              (apply_all (changes Example.tree undone pu) 11)),
       mkStore Example.tree
         (mkState (apply_all (changes Example.tree redone (rev pr))
                     (apply_all (changes Example.tree undone pu) 11))
                  (Some 3%nat) (0 + 1))).
Proof.
  apply (acquire_replays_changes Example.at2 0%nat 3%nat 2%nat 1 2 3).
  - apply example_member_3.
  - reflexivity.
  - apply example_member_2.
  - lia.
  - lia.
  - discriminate.
  - reflexivity.
  - apply example_quiet.
Defined.

Lemma acquire_raises_iff_witness :
  ∃ a pu pr,
    last_common_ancestor Example.faulty_tree 4%nat 2%nat a ∧
    path Example.faulty_tree a 2%nat pu ∧ path Example.faulty_tree a 4%nat pr ∧
    (raises (acquire 3 4%nat Example.faulty_at2).1 ↔
       2%nat ≠ 4%nat ∧
       (0 ≠ 0 ∨ raises (replay Example.faulty_tree pu pr 11).1)).
Proof.
  refine (proj1 (acquire_raises_iff Example.faulty_at2 0%nat 4%nat 2%nat 1 2 3
                   _ _ _ _ _ _)).
  - apply example_faulty_member_4.
  - reflexivity.
  - apply example_faulty_member_2.
  - lia.
  - lia.
  - cbn. lia.
Defined.

(** C4, as the specification states it, fails: the capsule is not acquired
    (the count is zero), and [acquire] raises all the same, because the
    redo of the instant raises. *)
Lemma acquire_raises_while_not_acquired :
  ¬ (raises (acquire 3 4%nat Example.faulty_at2).1 ↔
       2%nat ≠ 4%nat ∧ acquisitionCount (state Example.faulty_at2) ≠ 0).
Proof.
  intros [Honly _].
  destruct Honly as [_ Hcount]; [|by apply Hcount].
  exists (Error "redo failed"). vm_compute. reflexivity.
Qed.

Lemma release_raises_iff_witness :
  release 2%nat Example.at2_held = (Ret tt, Example.at2).
Proof.
  apply (proj2 (release_raises_iff Example.at2_held 2%nat)).
  - cbn. lia.
  - reflexivity.
Defined.

Lemma acquire_round_trip_witness :
  ∃ d1 w1 w2 d2 w3 w4 d3 w5,
    acquire 3 3%nat Example.at2 = (Ret d1, w1) ∧
    release 3%nat w1 = (Ret tt, w2) ∧
    acquire 3 1%nat w2 = (Ret d2, w3) ∧
    release 1%nat w3 = (Ret tt, w4) ∧
    acquire 3 3%nat w4 = (Ret d3, w5) ∧
    d3 = d1.
Proof.
  apply (acquire_round_trip Example.at2 0%nat 3%nat 1%nat 2%nat 1 1 2 3).
  - apply example_member_3.
  - apply example_member_1.
  - reflexivity.
  - apply example_member_2.
  - lia.
  - lia.
  - lia.
  - reflexivity.
  - apply example_inverses.
  - apply example_quiet.
Defined.

Lemma findLastCommonAncestor_terminates_witness :
  (∃ a, findLastCommonAncestor 3 Example.tree (Some 3%nat) (Some 2%nat) = Ret (Some a) ∧
        ancestor Example.tree a 3%nat ∧ ancestor Example.tree a 2%nat) ∧
  (ending Example.tree →
   Some 2%nat = Some 2%nat → (acquire 3 3%nat Example.at2).1 ≠ Timeout).
Proof.
  apply (findLastCommonAncestor_terminates Example.at2 0%nat 3%nat 2%nat 1 2 3).
  - apply example_member_3.
  - apply example_member_2.
  - lia.
  - lia.
Defined.

End TimeCapsuleFacts.

(** * Properties of task instructions *)

Module TaskInstructionFacts.
Import TaskInstruction.

(** *** Instruction indices *)

Lemma js_shl_1_30 : js_shl 1 (31 - 1) = 2 ^ 30.
Proof. reflexivity. Qed.

(** The counter wraps at [2^30]. *)
Lemma generateInstructionIndex_next (c : Z) :
  0 ≤ c →
  generateInstructionIndex c = (c, (c + 1) mod 2 ^ 30).
Proof.
  intros Hc. unfold generateInstructionIndex, js_rem. rewrite js_shl_1_30.
  f_equal. apply Z.rem_mod_nonneg; lia.
Qed.

Example generateIndices_across_wrap :
  generateIndices 3 (2 ^ 30 - 2) = ([2 ^ 30 - 2; 2 ^ 30 - 1; 0], 1).
Proof. vm_compute. reflexivity. Qed.

(** C2 does not hold of the code: after the index [2^30 - 1] the counter is
    0, where the previous index plus one modulo [2^31 - 1] is [2^30]. *)
Theorem generateInstructionIndex_wraps_early :
  generateInstructionIndex (2 ^ 30 - 1) = (2 ^ 30 - 1, 0) ∧
  (2 ^ 30 - 1 + 1) mod (2 ^ 31 - 1) = 2 ^ 30.
Proof. split; vm_compute; reflexivity. Qed.

Section instruction_facts.
Context {Value Task : Type}.
Implicit Types (w : Heap Value Task) (ds : gmap ref (ModelData Value)).

Lemma get_set_eq (m : ModelData Value) c v :
  getComponentUnchecked (setComponentUnchecked c v m) c = v.
Proof.
  unfold getComponentUnchecked, setComponentUnchecked, ModelData in *.
  apply lookup_partial_alter_eq.
Qed.

Lemma get_set_ne (m : ModelData Value) c c' v :
  c ≠ c' →
  getComponentUnchecked (setComponentUnchecked c v m) c' =
    getComponentUnchecked m c'.
Proof.
  intros Hne.
  unfold getComponentUnchecked, setComponentUnchecked, ModelData in *.
  by apply lookup_partial_alter_ne.
Qed.

(** The loop of [transferOutput], run from data that agree with the
    source's on every component ([source] and [target] may be one and the
    same object). *)
Lemma transferLoop_spec source target (d0 : ModelData Value) l :
  ∀ ds sd td,
  ds !! source = Some sd → ds !! target = Some td →
  (∀ c, getComponentUnchecked sd c = getComponentUnchecked d0 c) →
  ∃ ds' sd' td',
    transferLoop source target l ds = (Ret tt, ds') ∧
    ds' !! source = Some sd' ∧ ds' !! target = Some td' ∧
    (∀ c, getComponentUnchecked sd' c = getComponentUnchecked d0 c) ∧
    (∀ c, c ∈ l → getComponentUnchecked td' c = getComponentUnchecked d0 c) ∧
    (∀ c, c ∉ l → getComponentUnchecked td' c = getComponentUnchecked td c) ∧
    (∀ r, r ≠ target → ds' !! r = ds !! r).
Proof.
  induction l as [|c l IH]; intros ds sd td Hs Ht Hagree.
  - exists ds, sd, td. cbn. split_and!; auto. intros c Hc. by inversion Hc.
  - cbn [transferLoop]. rewrite Hs, Ht.
    set (td1 := setComponentUnchecked c (getComponentUnchecked sd c) td).
    set (ds1 := <[ target := td1 ]> ds).
    assert (∃ sd1, ds1 !! source = Some sd1 ∧
              ∀ c', getComponentUnchecked sd1 c' = getComponentUnchecked d0 c')
      as (sd1 & Hs1 & Hagree1).
    { destruct (decide (source = target)) as [Heq|Hne].
      - exists td1. subst ds1. rewrite Heq, lookup_insert_eq. split; [done|].
        intros c'. assert (td = sd) as -> by congruence. subst td1.
        destruct (decide (c = c')) as [<-|Hcc].
        + by rewrite get_set_eq.
        + by rewrite get_set_ne.
      - exists sd. subst ds1. by rewrite lookup_insert_ne. }
    assert (ds1 !! target = Some td1) as Ht1 by apply lookup_insert_eq.
    destruct (IH ds1 sd1 td1 Hs1 Ht1 Hagree1)
      as (ds' & sd' & td' & Hrun & Hs' & Ht' & Hsrc & Hin & Hout & Hother).
    exists ds', sd', td'. split_and!; try done.
    + intros c' Hc'. destruct (decide (c' ∈ l)) as [Hl|Hl]; [by apply Hin|].
      apply elem_of_cons in Hc' as [->|?]; [|done].
      rewrite Hout by done. subst td1. by rewrite get_set_eq.
    + intros c' Hc'. apply not_elem_of_cons in Hc' as [Hne Hl].
      rewrite Hout by done. subst td1. by apply get_set_ne.
    + intros r Hr. rewrite Hother by done. subst ds1.
      by rewrite lookup_insert_ne.
Qed.

(** C8: [I.transferOutput(S)] raises an error exactly when [S]'s
    dependency map has no entry for [I]; otherwise, for each component on
    the edge [S.dependencies[I]], [S]'s data gets the value the component
    has in [I]'s data, every other component of [S]'s data keeps its value,
    and [I]'s data keeps all of its values. *)
Theorem transferOutput_copies_edge_components w I S i s di dt :
  instructions w !! I = Some i → instructions w !! S = Some s →
  datas w !! data i = Some di → datas w !! data s = Some dt →
  (raises (transferOutput I S w).1 ↔ getValue (dependencies s) i = None) ∧
  (∀ cs, getValue (dependencies s) i = Some cs →
     ∃ ds' di' dt',
       transferOutput I S w =
         (Ret tt, mkHeap (instructions w) ds' (taskCounter w)) ∧
       ds' !! data i = Some di' ∧ ds' !! data s = Some dt' ∧
       (∀ c, c ∈ cs → getComponentUnchecked dt' c = getComponentUnchecked di c) ∧
       (∀ c, c ∉ cs → getComponentUnchecked dt' c = getComponentUnchecked dt c) ∧
       (∀ c, getComponentUnchecked di' c = getComponentUnchecked di c) ∧
       (∀ r, r ≠ data s → ds' !! r = datas w !! r)).
Proof.
  intros HI HS Hdi Hdt.
  assert (∀ cs, getValue (dependencies s) i = Some cs →
     ∃ ds' di' dt',
       transferOutput I S w =
         (Ret tt, mkHeap (instructions w) ds' (taskCounter w)) ∧
       ds' !! data i = Some di' ∧ ds' !! data s = Some dt' ∧
       (∀ c, c ∈ cs → getComponentUnchecked dt' c = getComponentUnchecked di c) ∧
       (∀ c, c ∉ cs → getComponentUnchecked dt' c = getComponentUnchecked dt c) ∧
       (∀ c, getComponentUnchecked di' c = getComponentUnchecked di c) ∧
       (∀ r, r ≠ data s → ds' !! r = datas w !! r)) as Hcopy.
  { intros cs Hcs.
    destruct (transferLoop_spec (data i) (data s) di (elements cs)
                (datas w) di dt Hdi Hdt)
      as (ds' & di' & dt' & Hrun & Hi' & Ht' & Hsrc & Hin & Hout & Hother);
      [done|].
    exists ds', di', dt'. unfold transferOutput, load.
    rewrite HI, HS, Hcs, Hrun. split_and!; try done.
    - intros c Hc. apply Hin. by apply elem_of_elements.
    - intros c Hc. apply Hout. by rewrite elem_of_elements. }
  split; [|done].
  destruct (getValue (dependencies s) i) as [cs|] eqn:Hcs.
  - destruct (Hcopy cs eq_refl) as (ds' & ? & ? & -> & _). cbn.
    split; [intros [e He]; discriminate | done].
  - unfold transferOutput, load. rewrite HI, HS, Hcs. cbn.
    split; [done | intros _; by eexists].
Qed.

Lemma add_contains (inv : gmap Z ref) r (s : Instruction Task) :
  contains (add inv r s) s = true.
Proof.
  unfold add. destruct (contains inv s) eqn:Hc; [done|].
  unfold contains. rewrite lookup_insert_eq.
  apply bool_decide_eq_true. eauto.
Qed.

Lemma add_keeps (inv : gmap Z ref) r (s q : Instruction Task) :
  contains inv q = true → contains (add inv r s) q = true.
Proof.
  unfold add. destruct (contains inv s) eqn:Hc; [done|].
  unfold contains. intros [x Hx]%bool_decide_eq_true.
  apply bool_decide_eq_true.
  destruct (decide (index s = index q)) as [Heq|Hne].
  - rewrite Heq, lookup_insert_eq. eauto.
  - rewrite lookup_insert_ne by done. eauto.
Qed.

(** What [addDependency] leaves in the heap, object by object. *)
Lemma addDependency_lookup w S P c s p :
  instructions w !! S = Some s → instructions w !! P = Some p →
  ∃ w',
    addDependency S P c w = (Ret tt, w') ∧
    datas w' = datas w ∧ taskCounter w' = taskCounter w ∧
    ∀ r,
      instructions w' !! r =
        (λ i, mkInstruction (index i) (task i) (data i)
                (if decide (r = S)
                 then <[ index p :=
                         (P, {[ c ]} ∪ default ∅ (getValue (dependencies s) p)) ]>
                        (dependencies i)
                 else dependencies i)
                (if decide (r = P)
                 then add (invertedDependencies i) S s
                 else invertedDependencies i))
        <$> instructions w !! r.
Proof.
  intros HS HP. unfold addDependency, load. rewrite HS, HP.
  replace (match getValue (dependencies s) p with Some cs => cs | None => ∅ end)
    with (default ∅ (getValue (dependencies s) p))
    by by destruct (getValue (dependencies s) p).
  set (cs := {[ c ]} ∪ default ∅ (getValue (dependencies s) p)).
  unfold with_instruction. cbn [instructions datas taskCounter].
  destruct (decide (S = P)) as [<-|Hne].
  - assert (p = s) as -> by congruence.
    rewrite lookup_insert_eq. eexists. split; [reflexivity|]. cbn.
    split_and!; try done. intros r.
    destruct (decide (r = S)) as [->|Hr].
    + rewrite lookup_insert_eq, HS. done.
    + rewrite !lookup_insert_ne by done.
      destruct (instructions w !! r) as [[]|]; done.
  - rewrite lookup_insert_ne by done. rewrite HP.
    eexists. split; [reflexivity|]. cbn.
    split_and!; try done. intros r.
    destruct (decide (r = P)) as [->|Hr].
    + rewrite lookup_insert_eq, HP. cbn. rewrite decide_False by done. done.
    + rewrite lookup_insert_ne by done.
      destruct (decide (r = S)) as [->|Hr'].
      * rewrite lookup_insert_eq, HS. cbn. done.
      * rewrite lookup_insert_ne by done.
        destruct (instructions w !! r) as [[]|]; done.
Qed.

Lemma contains_index (inv : gmap Z ref) (q q' : Instruction Task) :
  index q = index q' → contains inv q = contains inv q'.
Proof. unfold contains. by intros ->. Qed.

Lemma add_lookup (inv : gmap Z ref) r (s : Instruction Task) k :
  k ≠ index s → add inv r s !! k = inv !! k.
Proof.
  intros Hk. unfold add. destruct (contains inv s); [done|].
  by rewrite lookup_insert_ne.
Qed.

Lemma add_lookup_Some (inv : gmap Z ref) r (s : Instruction Task) k r' :
  inv !! k = Some r' → add inv r s !! k = Some r'.
Proof.
  intros Hk. unfold add. destruct (contains inv s) eqn:Hc; [done|].
  apply bool_decide_eq_false in Hc.
  rewrite lookup_insert_ne; [done|]. intros <-. apply Hc. eauto.
Qed.

Lemma add_lookup_inv (inv : gmap Z ref) r (s : Instruction Task) k r' :
  add inv r s !! k = Some r' →
  inv !! k = Some r' ∨ (k = index s ∧ r' = r).
Proof.
  unfold add. destruct (contains inv s); [by left|].
  intros [[<- <-]|[_ ?]]%lookup_insert_Some; [by right | by left].
Qed.

(** C9: after [S.addDependency(P, c)], [S.dependencies[P]] holds [c] and
    every component it held before, and no other; the entries of [S] for
    the other predecessors are as before, and [P.invertedDependencies]
    contains [S] beside all it contained.  Nothing else changes, so the
    dependency edges and the inverted-dependency edges stay mirror images
    of each other, and components given for one predecessor add up. *)
Theorem addDependency_accumulates w S P c s p :
  instructions w !! S = Some s → instructions w !! P = Some p →
  ∃ w' s' p' cs',
    addDependency S P c w = (Ret tt, w') ∧
    instructions w' !! S = Some s' ∧ instructions w' !! P = Some p' ∧
    getValue (dependencies s') p = Some cs' ∧
    c ∈ cs' ∧
    (∀ cs, getValue (dependencies s) p = Some cs → cs ⊆ cs') ∧
    (∀ q : Instruction Task, index q ≠ index p →
       getValue (dependencies s') q = getValue (dependencies s) q) ∧
    contains (invertedDependencies p') s = true ∧
    (∀ r, r ≠ S → r ≠ P → instructions w' !! r = instructions w !! r) ∧
    datas w' = datas w ∧
    cs' = {[ c ]} ∪ default ∅ (getValue (dependencies s) p) ∧
    (∀ k, k ≠ index p → dependencies s' !! k = dependencies s !! k) ∧
    (∀ k, k ≠ index s →
       invertedDependencies p' !! k = invertedDependencies p !! k) ∧
    (∀ k r, invertedDependencies p !! k = Some r →
       invertedDependencies p' !! k = Some r) ∧
    (S ≠ P →
     invertedDependencies s' = invertedDependencies s ∧
     dependencies p' = dependencies p) ∧
    (index s' = index s ∧ task s' = task s ∧ data s' = data s) ∧
    (index p' = index p ∧ task p' = task p ∧ data p' = data p) ∧
    taskCounter w' = taskCounter w ∧
    (edges_mirrored w → edges_mirrored w').
Proof.
  intros HS HP.
  destruct (addDependency_lookup w S P c s p HS HP) as (w' & Hrun & Hd & Hc & Hw').
  set (cs0 := {[ c ]} ∪ default ∅ (getValue (dependencies s) p)) in *.
  pose proof (Hw' S) as HS'. rewrite HS in HS'.
  cbn [fmap option_fmap option_map] in HS'.
  rewrite (decide_True (P:=S = S)) in HS' by done.
  pose proof (Hw' P) as HP'. rewrite HP in HP'.
  cbn [fmap option_fmap option_map] in HP'.
  rewrite (decide_True (P:=P = P)) in HP' by done.
  eexists w', _, _, cs0.
  split; [exact Hrun|]. split; [exact HS'|]. split; [exact HP'|].
  cbn [index task data dependencies invertedDependencies].
  split_and!; try done.
  - unfold getValue. cbn. by rewrite lookup_insert_eq.
  - subst cs0. set_solver.
  - intros cs Hcs. subst cs0. rewrite Hcs. set_solver.
  - intros q Hq. unfold getValue. cbn. by rewrite lookup_insert_ne.
  - apply add_contains.
  - intros r Hr1 Hr2. rewrite Hw'.
    destruct (instructions w !! r) as [[]|]; cbn; [|done].
    by rewrite !decide_False by done.
  - intros k Hk. by rewrite lookup_insert_ne.
  - intros k Hk. by apply add_lookup.
  - intros k r Hk. by apply add_lookup_Some.
  - intros Hne. rewrite !decide_False by done. done.
  - intros [Hfwd Hbwd]. split.
    + intros S1 s1 k P1 cs1 HS1 Hk. rewrite Hw' in HS1.
      destruct (instructions w !! S1) as [s0|] eqn:Hs0; [|done].
      cbn in HS1. injection HS1 as <-. cbn in Hk.
      assert ((S1 = S ∧ k = index p ∧ P1 = P) ∨
              dependencies s0 !! k = Some (P1, cs1)) as [(-> & -> & ->)|Hold].
      { destruct (decide (S1 = S)) as [->|?]; [|by right].
        destruct (decide (index p = k)) as [<-|?].
        - rewrite lookup_insert_eq in Hk. left. by simplify_eq.
        - rewrite lookup_insert_ne in Hk by done. by right. }
      * assert (s0 = s) as -> by congruence.
        eexists. split; [exact HP'|]. cbn [invertedDependencies].
        rewrite (contains_index _ _ s) by done. apply add_contains.
      * destruct (Hfwd S1 s0 k P1 cs1 Hs0 Hold) as (p1 & Hp1 & Hcont).
        eexists. split; [by rewrite Hw', Hp1|]. cbn [invertedDependencies].
        rewrite (contains_index _ _ s0) by done.
        destruct (decide (P1 = P)); [by apply add_keeps | done].
    + intros P1 p1 k S1 HP1 Hk. rewrite Hw' in HP1.
      destruct (instructions w !! P1) as [p0|] eqn:Hp0; [|done].
      cbn in HP1. injection HP1 as <-. cbn in Hk.
      assert ((P1 = P ∧ S1 = S) ∨
              invertedDependencies p0 !! k = Some S1) as [[-> ->]|Hold].
      { destruct (decide (P1 = P)) as [->|?]; [|by right].
        apply add_lookup_inv in Hk as [?|[_ ->]]; [by right | by left]. }
      * assert (p0 = p) as -> by congruence.
        eexists. split; [exact HS'|]. unfold getValue. cbn.
        rewrite lookup_insert_eq. by eexists.
      * destruct (Hbwd P1 p0 k S1 Hp0 Hold) as (s1 & Hs1 & [cs1 Hdep]).
        eexists. split; [by rewrite Hw', Hs1|]. unfold getValue in *. cbn.
        destruct (decide (S1 = S)); [|by eexists].
        destruct (decide (index p = index p0)) as [Heq|Hneq].
        -- rewrite Heq, lookup_insert_eq. by eexists.
        -- rewrite lookup_insert_ne by done. by eexists.
Qed.

End instruction_facts.

(** *** The claims at the example heap *)

Example example_transferOutput :
  datas (transferOutput 0%nat 1%nat Example.heap).2 !! 1%nat =
    Some (<[ DataGraph := 1 ]> (<[ IO := 2 ]> ∅)).
Proof. vm_compute. reflexivity. Qed.

Example example_transferOutput_independent :
  (transferOutput 1%nat 0%nat Example.heap).1 = Throw independent_transfer.
Proof. vm_compute. reflexivity. Qed.

Lemma transferOutput_copies_edge_components_witness :
  raises (transferOutput 0%nat 1%nat Example.heap).1 ↔
  getValue (dependencies Example.second) Example.first = None.
Proof.
  apply (transferOutput_copies_edge_components Example.heap 0%nat 1%nat
           Example.first Example.second
           (<[ DataGraph := 1 ]> (<[ IO := 1 ]> ∅)) (<[ IO := 2 ]> ∅));
    reflexivity.
Defined.

Lemma example_lookup (r : ref) (i : Instruction unit) :
  instructions Example.heap !! r = Some i →
  (r = 0%nat ∧ i = Example.first) ∨ (r = 1%nat ∧ i = Example.second).
Proof.
  unfold Example.heap. cbn [instructions]. intros Hi.
  apply lookup_insert_Some in Hi as [[<- <-]|[_ Hi]]; [by left|].
  apply lookup_insert_Some in Hi as [[<- <-]|[_ Hi]]; [by right|].
  by rewrite lookup_empty in Hi.
Qed.

Lemma example_edges_mirrored : edges_mirrored Example.heap.
Proof.
  split.
  - intros S s k P cs HS Hk.
    apply example_lookup in HS as [[-> ->]|[-> ->]]; [done|].
    cbn [dependencies Example.second] in Hk.
    apply lookup_singleton_Some in Hk as [<- [= <- <-]].
    exists Example.first. split; reflexivity.
  - intros P p k S HP Hk.
    apply example_lookup in HP as [[-> ->]|[-> ->]]; [|done].
    cbn [invertedDependencies Example.first] in Hk.
    apply lookup_singleton_Some in Hk as [<- <-].
    exists Example.second. split; [reflexivity|]. by eexists.
Qed.

Lemma addDependency_accumulates_witness :
  ∃ w' s' p' cs',
    addDependency 1%nat 0%nat IO Example.heap = (Ret tt, w') ∧
    instructions w' !! 1%nat = Some s' ∧ instructions w' !! 0%nat = Some p' ∧
    getValue (dependencies s') Example.first = Some cs' ∧
    IO ∈ cs' ∧
    (∀ cs, getValue (dependencies Example.second) Example.first = Some cs →
           cs ⊆ cs') ∧
    (∀ q : Instruction unit, index q ≠ index Example.first →
       getValue (dependencies s') q = getValue (dependencies Example.second) q) ∧
    contains (invertedDependencies p') Example.second = true ∧
    (∀ r, r ≠ 1%nat → r ≠ 0%nat →
       instructions w' !! r = instructions Example.heap !! r) ∧
    datas w' = datas Example.heap ∧
    cs' = {[ IO ]} ∪
          default ∅ (getValue (dependencies Example.second) Example.first) ∧
    (∀ k, k ≠ index Example.first →
       dependencies s' !! k = dependencies Example.second !! k) ∧
    (∀ k, k ≠ index Example.second →
       invertedDependencies p' !! k = invertedDependencies Example.first !! k) ∧
    (∀ k r, invertedDependencies Example.first !! k = Some r →
       invertedDependencies p' !! k = Some r) ∧
    (1%nat ≠ 0%nat →
     invertedDependencies s' = invertedDependencies Example.second ∧
     dependencies p' = dependencies Example.first) ∧
    (index s' = index Example.second ∧ task s' = task Example.second ∧
     data s' = data Example.second) ∧
    (index p' = index Example.first ∧ task p' = task Example.first ∧
     data p' = data Example.first) ∧
    taskCounter w' = taskCounter Example.heap ∧
    (edges_mirrored Example.heap → edges_mirrored w').
Proof.
  apply (addDependency_accumulates Example.heap 1%nat 0%nat IO
           Example.second Example.first); reflexivity.
Defined.

End TaskInstructionFacts.

(** * Properties of the priority generator *)

Module PriorityGeneratorFacts.
Import PriorityGenerator.

Example nexts_default : (nexts 10 new).1 = replicate 10 0.
Proof. vm_compute. reflexivity. Qed.

(** C7: after [notifyPriorityExists(3)] and [notifyPriorityExists(-2)] on a
    fresh generator, the first 42 calls of [next()] return the 21 values
    3, 3,2, 3,2,1, 3,2,1,0, 3,2,1,0,-1, 3,2,1,0,-1,-2 and then the same 21
    values again. *)
Theorem nexts_between_minus_2_and_3 :
  (nexts 42 (notifyPriorityExists (-2) (notifyPriorityExists 3 new))).1 =
    [3;
     3; 2;
     3; 2; 1;
     3; 2; 1; 0;
     3; 2; 1; 0; -1;
     3; 2; 1; 0; -1; -2;
     3;
     3; 2;
     3; 2; 1;
     3; 2; 1; 0;
     3; 2; 1; 0; -1;
     3; 2; 1; 0; -1; -2].
Proof. vm_compute. reflexivity. Qed.

End PriorityGeneratorFacts.

(** * Further properties of the time capsule *)

Module TimeCapsuleMore.
Import TimeCapsule TimeCapsuleFacts.

Section more.
Context {T : Type}.
Implicit Types (h : gmap ref (Instant T)) (x y a b p root : ref).

Lemma member_root_lookup h root x n :
  member h root x n → ∃ i, h !! root = Some i ∧ parent i = None.
Proof. induction 1; eauto. Qed.

Lemma path_ancestor h a x l : path h a x l → ancestor h a x.
Proof.
  induction 1 as [|x i p l _ Hi Hp _ IH]; [constructor|].
  eapply ancestor_up; eauto.
Qed.

Lemma ancestor_root h root x n : member h root x n → ancestor h root x.
Proof.
  induction 1 as [|x i p n Hi Hp _ _ IH]; [constructor|].
  eapply ancestor_up; eauto.
Qed.

(** The path to the root goes through every ancestor. *)
Lemma path_split h root a x pu : ∀ n lx,
  member h root x n →
  path h a x pu → path h root x lx →
  ∃ la, path h root a la ∧ lx = pu ++ la.
Proof.
  intros n lx Hm Hpu. revert n lx Hm.
  induction Hpu as [|x i p pu Hne Hi Hp _ IH]; intros n lx Hm Hlx.
  - exists lx. done.
  - destruct (member_root_lookup _ _ _ _ Hm) as (ir & Hir & Hnone).
    destruct (member_parent _ _ _ _ _ _ Hm Hi Hp) as (n' & -> & Hpm).
    inversion Hlx as [|? i' p' lx' _ Hi' Hp' Hlx']; subst.
    { congruence. }
    assert (p' = p) as -> by congruence.
    destruct (IH n' lx' Hpm Hlx') as (la & Hla & ->).
    exists la. done.
Qed.

Lemma undo_after_redo h l : ∀ d,
  (∀ r i d', h !! r = Some i → undone i (redone i d') = d') →
  apply_all (changes h undone l)
    (apply_all (changes h redone (rev l)) d) = d.
Proof.
  induction l as [|r l IH]; intros d Hinv; [done|].
  cbn [rev]. rewrite changes_app, apply_all_app, !changes_cons.
  destruct (h !! r) as [i|] eqn:Hi.
  - rewrite !apply_all_cons, changes_nil, apply_all_nil.
    rewrite (Hinv r i _ Hi). by apply IH.
  - rewrite changes_nil, apply_all_nil. by apply IH.
Qed.

(** X1.  Snapshot fidelity.  When no undo and no redo raises, each undo
    takes back its redo, and the data
    is what the redos on the way from the root to the current instant make
    of [d0], then [acquire] on [x] yields what the redos on the way from the
    root to [x] make of [d0]. *)
Theorem acquire_yields_snapshot (w : Store T) root x c n m fuel lx lc d0 :
  member (instants w) root x n →
  currentInstant (state w) = Some c →
  member (instants w) root c m →
  (n < fuel)%nat → (m < fuel)%nat →
  acquisitionCount (state w) = 0 →
  quiet (instants w) →
  (∀ r i d, instants w !! r = Some i → undone i (redone i d) = d) →
  path (instants w) root c lc → path (instants w) root x lx →
  data (state w) = apply_all (changes (instants w) redone (rev lc)) d0 →
  let d' := apply_all (changes (instants w) redone (rev lx)) d0 in
  acquire fuel x w =
    (Ret d', mkStore (instants w) (mkState d' (Some x) 1)).
Proof.
  intros Hx Hcur Hc Hn Hm Hcount Hq Hinv Hlc Hlx Hdata d'. subst d'.
  destruct (decide (c = x)) as [->|Hne].
  - rewrite acquire_same_spec by done.
    rewrite (path_unique _ _ _ _ _ Hlx Hlc), <- Hdata, Hcount. done.
  - destruct (acquire_elsewhere_spec w root x c n m fuel)
      as (a & pu & pr & Hlca & Hpu & Hpr & Hrun); [done..|lia|].
    cbn zeta in Hrun. rewrite Hrun, Hcount.
    destruct (path_split _ _ _ _ _ _ _ Hc Hpu Hlc) as (la & Hla & ->).
    destruct (path_split _ _ _ _ _ _ _ Hx Hpr Hlx) as (la' & Hla' & ->).
    rewrite (path_unique _ _ _ _ _ Hla' Hla).
    rewrite Hdata, !rev_app_distr, !changes_app, !apply_all_app.
    rewrite undo_after_redo by done. done.
Qed.

Lemma path_length h root a x l : ∀ n k,
  path h a x l → member h root x n → member h root a k →
  length l = (n - k)%nat ∧ (a ∉ l) ∧
  ∀ r, r ∈ l → ancestor h a r ∧ ancestor h r x.
Proof.
  intros n k Hl. revert n.
  induction Hl as [|x i p l Hne Hi Hp Hl IH]; intros n Hx Ha.
  - pose proof (member_depth_unique _ _ _ _ _ Hx Ha) as ->.
    split_and!; [cbn; lia | apply not_elem_of_nil |].
    intros r Hr. by apply elem_of_nil in Hr.
  - destruct (member_parent _ _ _ _ _ _ Hx Hi Hp) as (n' & -> & Hpm).
    destruct (IH n' Hpm Ha) as (Hlen & Hnotin & Hanc).
    destruct (ancestor_depth _ _ _ _ _ Hpm (path_ancestor _ _ _ _ Hl))
      as (k' & Hk' & Hak').
    pose proof (member_depth_unique _ _ _ _ _ Ha Hak') as <-.
    split_and!.
    + cbn. lia.
    + apply not_elem_of_cons. split; [congruence | done].
    + intros r [->|Hr]%elem_of_cons.
      * split; [|constructor]. eapply ancestor_up; eauto using path_ancestor.
      * destruct (Hanc r Hr) as [? ?]. split; [done|].
        eapply ancestor_up; eauto.
Qed.

(** X9.  [pathToAncestor] from [x] to an ancestor [a] returns as many instants
    as the generations of [x] and [a] differ; [a] is not among them, and
    each of them lies between [a] and [x]. *)
Theorem pathToAncestor_between (w : Store T) root a x n k fuel :
  member (instants w) root x n → member (instants w) root a k →
  ancestor (instants w) a x → (n < fuel)%nat →
  ∃ l, pathToAncestor fuel (instants w) x (Some a) = Ret l ∧
       length l = (n - k)%nat ∧ (a ∉ l) ∧
       ∀ r, r ∈ l → ancestor (instants w) a r ∧ ancestor (instants w) r x.
Proof.
  intros Hx Ha Hanc Hfuel.
  destruct (pathToAncestor_spec _ _ _ _ _ fuel Hanc Hx Hfuel) as (l & Hrun & Hl).
  exists l. split; [done|]. eapply path_length; eauto.
Qed.

(** X8.  The result of [findLastCommonAncestor] does not depend on the order of
    its arguments, and for an instant and one of its ancestors it is that
    ancestor. *)
Theorem findLastCommonAncestor_sym (w : Store T) root x y n m fuel :
  member (instants w) root x n → member (instants w) root y m →
  (n < fuel)%nat → (m < fuel)%nat →
  findLastCommonAncestor fuel (instants w) (Some x) (Some y) =
    findLastCommonAncestor fuel (instants w) (Some y) (Some x) ∧
  (ancestor (instants w) y x →
   findLastCommonAncestor fuel (instants w) (Some x) (Some y) = Ret (Some y)).
Proof.
  intros Hx Hy Hn Hm.
  destruct (findLastCommonAncestor_spec _ _ _ _ _ _ fuel Hx Hy Hn Hm)
    as (a & Hrun & Hlca).
  destruct (findLastCommonAncestor_spec _ _ _ _ _ _ fuel Hy Hx Hm Hn)
    as (a' & Hrun' & Hlca').
  apply last_common_ancestor_sym in Hlca'.
  pose proof (last_common_ancestor_unique _ _ _ _ _ _ _ Hx Hlca Hlca') as <-.
  split; [congruence|].
  intros Hanc. rewrite Hrun. do 2 f_equal.
  apply (last_common_ancestor_unique (instants w) root x y a y n); [done..|].
  split_and!; [done | constructor | auto].
Qed.

(** X5.  A failing [acquire] leaves the instants, the current instant and
    the acquisition count as they were, whatever made it fail (only the
    data may have been changed, by the undos and redos that ran before one
    of them raised).  When no undo and no redo raises, the only error on a
    capsule is the one for a capsule held by another instant, and then the
    whole store is as before. *)
Theorem acquire_raise_keeps_store (w w' : Store T) root x c n m fuel e :
  acquire fuel x w = (Throw e, w') →
  (instants w' = instants w ∧
   currentInstant (state w') = currentInstant (state w) ∧
   acquisitionCount (state w') = acquisitionCount (state w)) ∧
  (quiet (instants w) →
   member (instants w) root x n →
   currentInstant (state w) = Some c →
   member (instants w) root c m →
   (n < fuel)%nat → (m < fuel)%nat →
   e = already_acquired ∧ w' = w).
Proof.
  intros Hrun. split.
  - unfold acquire in Hrun. repeat case_match; simplify_eq; done.
  - intros Hq Hx Hcur Hc Hn Hm.
    destruct (decide (c = x)) as [->|Hne].
    { rewrite acquire_same_spec in Hrun by done. discriminate. }
    destruct (decide (acquisitionCount (state w) ≤ 0)) as [Hz|Hnz].
    + destruct (acquire_elsewhere_spec w root x c n m fuel)
        as (a & pu & pr & _ & _ & _ & Hrun'); [done..|].
      cbn zeta in Hrun'. rewrite Hrun' in Hrun. discriminate.
    + unfold acquire in Hrun. rewrite Hcur in Hrun.
      rewrite decide_False in Hrun by congruence.
      rewrite bool_decide_true in Hrun by lia. by simplify_eq.
Qed.

(** *** [create] and [modify] *)

Lemma ancestor_insert_fresh h a x r (i : Instant T) :
  h !! r = None → ancestor h a x → ancestor (<[ r := i ]> h) a x.
Proof.
  intros Hr. induction 1 as [|x j p Hj Hp _ IH]; [constructor|].
  eapply ancestor_up; eauto. rewrite lookup_insert_ne; [done | congruence].
Qed.

Lemma path_insert_fresh h a x l r (i : Instant T) :
  h !! r = None → path h a x l → path (<[ r := i ]> h) a x l.
Proof.
  intros Hr. induction 1 as [|x j p l Hne Hj Hp _ IH]; [constructor|].
  eapply path_up; eauto. rewrite lookup_insert_ne; [done | congruence].
Qed.

(** An ancestor of an old instant in the extended tree is an ancestor in
    the old tree. *)
Lemma ancestor_insert_fresh_inv h root a x n r (i : Instant T) :
  h !! r = None → member h root x n →
  ancestor (<[ r := i ]> h) a x → ancestor h a x.
Proof.
  intros Hr Hm Hanc. revert n Hm.
  induction Hanc as [|x j p Hj Hp _ IH]; intros n Hm; [constructor|].
  destruct (member_lookup _ _ _ _ Hm) as (j' & Hj' & _).
  rewrite lookup_insert_ne in Hj by congruence.
  destruct (member_parent _ _ _ _ _ _ Hm Hj Hp) as (n' & -> & Hpm).
  eapply ancestor_up; [exact Hj | exact Hp | by eapply IH].
Qed.

Lemma forOf_insert_fresh h change l d r (i : Instant T) :
  h !! r = None → Forall (λ r', is_Some (h !! r')) l →
  forOf (<[ r := i ]> h) change l d = forOf h change l d.
Proof.
  intros Hr Hall. revert d.
  induction Hall as [|r' l [j Hj] _ IH]; intros d; [done|].
  cbn [forOf deref]. rewrite lookup_insert_ne by congruence. rewrite Hj.
  destruct (change j d) as [[[]|e|] d']; [apply IH | done..].
Qed.

(** X7.  A fresh capsule is at its root, not acquired, and keeps the invariant;
    acquiring the root hands out the data as given. *)
Theorem create_then_acquire (d : T) fuel :
  let '(root, w) := create d in
  capsule_ok root w ∧
  member (instants w) root root 0 ∧
  acquire fuel root w =
    (Ret d, mkStore (instants w) (mkState d (Some root) 1)).
Proof.
  unfold create. set (root := fresh (∅ : gset ref)). split_and!.
  - split; cbn.
    + intros x [i Hi]. apply lookup_singleton_Some in Hi as [<- <-].
      exists O. eapply member_root; [apply lookup_singleton_eq | done..].
    + exists root. split; [done|]. rewrite lookup_singleton_eq. eauto.
    + lia.
  - cbn. eapply member_root; [apply lookup_singleton_eq | done..].
  - by rewrite acquire_same_spec.
Qed.

(** X3.  [modify] allocates a new instant and touches neither the old ones nor
    the shared state: the new instant is a child of [this], one generation
    deeper, and the capsule keeps its invariant. *)
Theorem modify_adds_child root (w : Store T) this doChange undo' :
  capsule_ok root w → is_Some (instants w !! this) →
  ∃ r n w',
    modify this doChange undo' w = (Ret r, w') ∧
    instants w !! r = None ∧
    state w' = state w ∧
    (∀ x, x ≠ r → instants w' !! x = instants w !! x) ∧
    instants w' !! r =
      Some (mkInstant (Some this) undo' doChange (Z.of_nat (S n))) ∧
    member (instants w) root this n ∧
    member (instants w') root r (S n) ∧
    capsule_ok root w'.
Proof.
  intros Hok Hthis.
  destruct (modify_ok root w this doChange undo' Hok Hthis)
    as (r & n & Hrun & Hfresh & Hm & Hok').
  rewrite Hrun in Hok'. cbn [snd] in Hok'.
  eexists r, n, _. split; [exact Hrun|]. cbn.
  split_and!; try done.
  - intros x Hx. by rewrite lookup_insert_ne.
  - apply lookup_insert_eq.
  - eapply member_child; [apply lookup_insert_eq | done | done |].
    by apply member_insert_fresh.
Qed.

(** X2.  Acquiring a child made by [modify] from the current instant applies
    [doChange] to the data, and nothing else: when [doChange] returns,
    leaving [d'], [acquire] returns [d']. *)
Theorem acquire_modified_child root (w w' : Store T) c r m fuel
    doChange undo' d' :
  capsule_ok root w →
  currentInstant (state w) = Some c →
  member (instants w) root c m →
  acquisitionCount (state w) = 0 →
  (S m < fuel)%nat →
  modify c doChange undo' w = (Ret r, w') →
  doChange (data (state w)) = (Ret tt, d') →
  acquire fuel r w' =
    (Ret d', mkStore (instants w') (mkState d' (Some r) 1)).
Proof.
  intros Hok Hcur Hc Hcount Hfuel Hmod Hdo.
  destruct (member_lookup _ _ _ _ Hc) as (ic & Hic & Hgc).
  destruct (modify_ok root w c doChange undo' Hok) as
    (r' & n & Hrun & Hfresh & Hm & _); [eauto|].
  rewrite Hmod in Hrun. injection Hrun as -> ->.
  pose proof (member_depth_unique _ _ _ _ _ Hc Hm) as <-.
  set (i := mkInstant (Some c) undo' doChange (Z.of_nat (S m))).
  set (h' := <[ r' := i ]> (instants w)).
  assert (r' ≠ c) as Hne by congruence.
  assert (member h' root c m) as Hc' by by apply member_insert_fresh.
  assert (member h' root r' (S m)) as Hr'.
  { eapply member_child; [apply lookup_insert_eq | done..]. }
  destruct (acquire_elsewhere_replay (mkStore h' (state w)) root r' c (S m) m fuel)
    as (a & pu & pr & Hlca & Hpu & Hpr & Hacq); try done; [lia | cbn; lia |].
  cbn [instants state] in *.
  assert (last_common_ancestor h' r' c c) as Hlca'.
  { split_and!; [|constructor|auto].
    eapply ancestor_up; [apply lookup_insert_eq | done | constructor]. }
  pose proof (last_common_ancestor_unique _ _ _ _ _ _ _ Hr' Hlca Hlca') as ->.
  assert (path h' c r' [r']) as Hpr'.
  { eapply path_up; [done | apply lookup_insert_eq | done | constructor]. }
  rewrite (path_unique _ _ _ _ _ Hpu (path_here h' c)) in Hacq.
  rewrite (path_unique _ _ _ _ _ Hpr Hpr') in Hacq.
  rewrite Hacq, Hcount. unfold replay. cbn [forOf rev app deref].
  subst h'. rewrite lookup_insert_eq.
  change (redoChange i (data (state w))) with (doChange (data (state w))).
  by rewrite Hdo.
Qed.

(** X6.  [acquire] and [release] keep the invariant of the capsule, whatever
    their outcome: every instant stays a member of the tree, the current
    instant stays allocated and the acquisition count never goes below
    zero. *)
Theorem acquire_release_keep_capsule_ok root (w : Store T) x fuel :
  capsule_ok root w → is_Some (instants w !! x) →
  capsule_ok root (acquire fuel x w).2 ∧ capsule_ok root (release x w).2 ∧
  instants (acquire fuel x w).2 = instants w ∧
  instants (release x w).2 = instants w.
Proof.
  intros Hok Hx. split_and!.
  - by apply acquire_ok.
  - by apply release_ok.
  - unfold acquire. repeat case_match; simplify_eq; done.
  - unfold release. repeat case_match; simplify_eq; done.
Qed.

(** X4.  [modify] does not change what the instants that were there before see:
    [acquire] on an old instant has the same outcome and leaves the same
    shared state with and without the new child. *)
Theorem modify_keeps_views root (w w' : Store T) this x c r n m fuel
    doChange undo' :
  capsule_ok root w →
  member (instants w) root x n →
  currentInstant (state w) = Some c →
  member (instants w) root c m →
  (n < fuel)%nat → (m < fuel)%nat →
  is_Some (instants w !! this) →
  modify this doChange undo' w = (Ret r, w') →
  (acquire fuel x w').1 = (acquire fuel x w).1 ∧
  state (acquire fuel x w').2 = state (acquire fuel x w).2.
Proof.
  intros Hok Hx Hcur Hc Hn Hm Hthis Hmod.
  destruct (modify_ok root w this doChange undo' Hok Hthis) as
    (r' & k & Hrun & Hfresh & _ & _).
  rewrite Hmod in Hrun. injection Hrun as -> ->.
  set (i := mkInstant (Some this) undo' doChange (Z.of_nat (S k))).
  set (h' := <[ r' := i ]> (instants w)).
  set (w' := mkStore h' (state w)).
  destruct (decide (c = x)) as [->|Hne].
  { rewrite !acquire_same_spec by done. done. }
  destruct (decide (acquisitionCount (state w) ≤ 0)) as [Hz|Hnz].
  - assert (member h' root x n) as Hx' by by apply member_insert_fresh.
    assert (member h' root c m) as Hc' by by apply member_insert_fresh.
    destruct (acquire_elsewhere_replay w root x c n m fuel)
      as (a & pu & pr & Hlca & Hpu & Hpr & Hacq); [done..|].
    destruct (acquire_elsewhere_replay w' root x c n m fuel)
      as (a' & pu' & pr' & Hlca' & Hpu' & Hpr' & Hacq'); [done..|].
    cbn [instants state w'] in *.
    assert (last_common_ancestor h' x c a) as Hlca2.
    { destruct Hlca as (Hax & Hac & Hlast). split_and!.
      - by apply ancestor_insert_fresh.
      - by apply ancestor_insert_fresh.
      - intros b Hbx Hbc. apply ancestor_insert_fresh; [done|].
        apply Hlast; eapply ancestor_insert_fresh_inv; eauto. }
    pose proof (last_common_ancestor_unique _ _ _ _ _ _ _ Hx' Hlca' Hlca2) as ->.
    rewrite (path_unique _ _ _ _ _ Hpu' (path_insert_fresh _ _ _ _ _ i Hfresh Hpu))
      in Hacq'.
    rewrite (path_unique _ _ _ _ _ Hpr' (path_insert_fresh _ _ _ _ _ i Hfresh Hpr))
      in Hacq'.
    assert (replay h' pu pr (data (state w)) =
            replay (instants w) pu pr (data (state w))) as Hre.
    { unfold replay.
      rewrite (forOf_insert_fresh _ _ _ _ _ i Hfresh)
        by eauto using path_allocated.
      destruct (forOf (instants w) undoChange pu (data (state w)))
        as [[[]|e|] d1]; [|done..].
      apply forOf_insert_fresh; [done|].
      apply Forall_rev. eauto using path_allocated. }
    rewrite Hre in Hacq'. rewrite Hacq, Hacq'. unfold with_data.
    by destruct (replay (instants w) pu pr (data (state w))) as [[[]|e|] d'].
  - unfold acquire. cbn [instants state w']. rewrite Hcur.
    rewrite !decide_False by congruence.
    rewrite !bool_decide_true by lia. done.
Qed.

End more.

(** *** The properties at the example capsule *)

Lemma example_path_2 : path Example.tree 0%nat 2%nat [2%nat; 1%nat].
Proof.
  eapply path_up; [discriminate | reflexivity | reflexivity |].
  eapply path_up; [discriminate | reflexivity | reflexivity |].
  constructor.
Qed.

Lemma example_path_3 : path Example.tree 0%nat 3%nat [3%nat].
Proof.
  eapply path_up; [discriminate | reflexivity | reflexivity |]. constructor.
Qed.

Lemma example_ok : capsule_ok 0%nat Example.at2.
Proof.
  split; cbn.
  - intros x [i Hi]. unfold Example.tree in Hi.
    apply lookup_insert_Some in Hi as [[<- _]|[_ Hi]];
      [eauto using example_member_0|].
    apply lookup_insert_Some in Hi as [[<- _]|[_ Hi]];
      [eauto using example_member_1|].
    apply lookup_insert_Some in Hi as [[<- _]|[_ Hi]];
      [eauto using example_member_2|].
    apply lookup_insert_Some in Hi as [[<- _]|[_ Hi]];
      [eauto using example_member_3|].
    by rewrite lookup_empty in Hi.
  - exists 2%nat. split; [done|]. by eexists.
  - lia.
Qed.

Lemma acquire_yields_snapshot_witness :
  acquire 3 3%nat Example.at2 =
    (Ret (apply_all (changes Example.tree redone (rev [3%nat])) 0),
     mkStore Example.tree
       (mkState (apply_all (changes Example.tree redone (rev [3%nat])) 0)
                (Some 3%nat) 1)).
Proof.
  apply (acquire_yields_snapshot Example.at2 0%nat 3%nat 2%nat 1 2 3
           [3%nat] [2%nat; 1%nat] 0).
  - apply example_member_3.
  - reflexivity.
  - apply example_member_2.
  - lia.
  - lia.
  - reflexivity.
  - apply example_quiet.
  - intros r i d Hi. by destruct (example_inverses r i Hi) as [-> _].
  - apply example_path_2.
  - apply example_path_3.
  - reflexivity.
Defined.

Lemma pathToAncestor_between_witness :
  ∃ l, pathToAncestor 3 Example.tree 2%nat (Some 0%nat) = Ret l ∧
       length l = (2 - 0)%nat ∧ (0%nat ∉ l) ∧
       ∀ r, r ∈ l → ancestor Example.tree 0%nat r ∧ ancestor Example.tree r 2%nat.
Proof.
  apply (pathToAncestor_between Example.at2 0%nat 0%nat 2%nat 2 0 3).
  - apply example_member_2.
  - apply example_member_0.
  - apply (ancestor_root _ _ _ _ example_member_2).
  - lia.
Defined.

Lemma findLastCommonAncestor_sym_witness :
  findLastCommonAncestor 3 Example.tree (Some 3%nat) (Some 2%nat) =
    findLastCommonAncestor 3 Example.tree (Some 2%nat) (Some 3%nat) ∧
  (ancestor Example.tree 2%nat 3%nat →
   findLastCommonAncestor 3 Example.tree (Some 3%nat) (Some 2%nat) =
     Ret (Some 2%nat)).
Proof.
  apply (findLastCommonAncestor_sym Example.at2 0%nat 3%nat 2%nat 1 2 3).
  - apply example_member_3.
  - apply example_member_2.
  - lia.
  - lia.
Defined.

Lemma acquire_raise_keeps_store_witness :
  instants (mkStore Example.faulty_tree (mkState 0 (Some 2%nat) 0)) =
    instants Example.faulty_at2 ∧
  currentInstant (state (mkStore Example.faulty_tree (mkState 0 (Some 2%nat) 0))) =
    currentInstant (state Example.faulty_at2) ∧
  acquisitionCount (state (mkStore Example.faulty_tree (mkState 0 (Some 2%nat) 0))) =
    acquisitionCount (state Example.faulty_at2).
Proof.
  apply (proj1 (acquire_raise_keeps_store Example.faulty_at2
                  (mkStore Example.faulty_tree (mkState 0 (Some 2%nat) 0))
                  0%nat 4%nat 2%nat 1 2 3 (Error "redo failed")
                  example_acquire_faulty)).
Defined.

Lemma modify_adds_child_witness :
  ∃ r n w',
    modify 2%nat (returning (λ d, d + 5)) (returning (λ d, d - 5)) Example.at2 = (Ret r, w') ∧
    instants Example.at2 !! r = None ∧
    state w' = state Example.at2 ∧
    (∀ x, x ≠ r → instants w' !! x = instants Example.at2 !! x) ∧
    instants w' !! r =
      Some (mkInstant (Some 2%nat) (returning (λ d, d - 5))
              (returning (λ d, d + 5)) (Z.of_nat (S n))) ∧
    member (instants Example.at2) 0%nat 2%nat n ∧
    member (instants w') 0%nat r (S n) ∧
    capsule_ok 0%nat w'.
Proof.
  apply (modify_adds_child 0%nat Example.at2 2%nat).
  - apply example_ok.
  - by eexists.
Defined.

Lemma acquire_modified_child_witness :
  acquire 4 4%nat (modify 2%nat (returning (λ d, d + 5)) (returning (λ d, d - 5)) Example.at2).2 =
    (Ret (11 + 5),
     mkStore (instants (modify 2%nat (returning (λ d, d + 5)) (returning (λ d, d - 5)) Example.at2).2)
       (mkState (11 + 5) (Some 4%nat) 1)).
Proof.
  apply (acquire_modified_child 0%nat Example.at2 _ 2%nat 4%nat 2 4
           (returning (λ d, d + 5)) (returning (λ d, d - 5)) (11 + 5)).
  - apply example_ok.
  - reflexivity.
  - apply example_member_2.
  - reflexivity.
  - lia.
  - vm_compute. reflexivity.
  - reflexivity.
Defined.

Lemma acquire_release_keep_capsule_ok_witness :
  capsule_ok 0%nat (acquire 3 3%nat Example.at2).2 ∧
  capsule_ok 0%nat (release 3%nat Example.at2).2 ∧
  instants (acquire 3 3%nat Example.at2).2 = instants Example.at2 ∧
  instants (release 3%nat Example.at2).2 = instants Example.at2.
Proof.
  apply (acquire_release_keep_capsule_ok 0%nat Example.at2 3%nat 3).
  - apply example_ok.
  - by eexists.
Defined.

Lemma modify_keeps_views_witness :
  (acquire 3 3%nat (modify 2%nat (returning (λ d, d + 5)) (returning (λ d, d - 5)) Example.at2).2).1 =
    (acquire 3 3%nat Example.at2).1 ∧
  state (acquire 3 3%nat (modify 2%nat (returning (λ d, d + 5)) (returning (λ d, d - 5)) Example.at2).2).2 =
    state (acquire 3 3%nat Example.at2).2.
Proof.
  apply (modify_keeps_views 0%nat Example.at2 _ 2%nat 3%nat 2%nat 4%nat 1 2 3
           (returning (λ d, d + 5)) (returning (λ d, d - 5))).
  - apply example_ok.
  - apply example_member_3.
  - reflexivity.
  - apply example_member_2.
  - lia.
  - lia.
  - by eexists.
  - vm_compute. reflexivity.
Defined.

End TimeCapsuleMore.

(** * Further properties of task instructions *)

Module TaskInstructionMore.
Import TaskInstruction TaskInstructionFacts.

(** *** Instruction indices *)

Lemma generateIndices_closed_form (n : nat) : ∀ c,
  0 ≤ c < 2 ^ 30 →
  generateIndices n c =
    ((λ k : nat, (c + Z.of_nat k) mod 2 ^ 30) <$> seq 0 n,
     (c + Z.of_nat n) mod 2 ^ 30).
Proof.
  induction n as [|n IH]; intros c Hc.
  - cbn [generateIndices seq fmap list_fmap]. f_equal.
    rewrite Z.add_0_r. symmetry. by apply Z.mod_small.
  - cbn [generateIndices]. rewrite generateInstructionIndex_next by lia.
    rewrite IH by (apply Z.mod_pos_bound; lia).
    cbn [seq]. rewrite <- fmap_S_seq. rewrite fmap_cons, <- list_fmap_compose.
    f_equal; [f_equal|].
    + rewrite Z.add_0_r. symmetry. by apply Z.mod_small.
    + apply list_fmap_ext. intros ? k ?. cbn.
      rewrite Zplus_mod_idemp_l. f_equal. lia.
    + rewrite Zplus_mod_idemp_l. f_equal. lia.
Qed.

(** X10.  Up to [2^30] successive constructions get pairwise different indices,
    all in the range from 0 to [2^30 - 1], and so is the counter they
    leave. *)
Theorem generateIndices_distinct (n : nat) (c : Z) :
  0 ≤ c < 2 ^ 30 → Z.of_nat n ≤ 2 ^ 30 →
  NoDup (generateIndices n c).1 ∧
  Forall (λ i, 0 ≤ i < 2 ^ 30) (generateIndices n c).1 ∧
  0 ≤ (generateIndices n c).2 < 2 ^ 30.
Proof.
  intros Hc Hn. rewrite generateIndices_closed_form by done. cbn [fst snd].
  split; [|split].
  - apply NoDup_fmap_2_strong; [|apply NoDup_seq].
    intros k1 k2 Hk1%elem_of_seq Hk2%elem_of_seq Heq.
    assert (((c + Z.of_nat k1) - (c + Z.of_nat k2)) mod 2 ^ 30 = 0) as Hd.
    { rewrite Zminus_mod, Heq, Z.sub_diag. done. }
    apply Z.mod_divide in Hd as [q Hq]; [|lia].
    assert (q = 0) by nia. lia.
  - apply Forall_fmap, Forall_forall. intros k _. cbn.
    apply Z.mod_pos_bound. lia.
  - apply Z.mod_pos_bound. lia.
Qed.

Section more.
Context {Value Task : Type}.
Implicit Types (w : Heap Value Task) (ds : gmap ref (ModelData Value)).

(** *** The constructor *)

(** X11.  A new instruction is a new object: it has the index the counter held,
    no dependencies in either direction, and so is eligible; the objects
    that were there are as before, and the counter stays in its range. *)
Theorem new_is_fresh_and_eligible w (t : Task) (d : ref) :
  0 ≤ taskCounter w < 2 ^ 30 →
  let '(this, w') := new t d w in
  instructions w !! this = None ∧
  (∃ i, instructions w' !! this = Some i ∧
        index i = taskCounter w ∧ data i = d ∧
        isEligibleForExecution i = true ∧ invertedDependencies i = ∅) ∧
  (∀ r, r ≠ this → instructions w' !! r = instructions w !! r) ∧
  datas w' = datas w ∧
  0 ≤ taskCounter w' < 2 ^ 30.
Proof.
  intros Hc. unfold new. rewrite generateInstructionIndex_next by lia.
  set (this := fresh (dom (instructions w))). cbn.
  split; [|split; [|split; [|split]]].
  - apply not_elem_of_dom, is_fresh.
  - eexists. rewrite lookup_insert_eq. split; [done|]. cbn.
    split_and!; try done.
  - intros r Hr. by rewrite lookup_insert_ne.
  - done.
  - apply Z.mod_pos_bound. lia.
Qed.

(** *** [addDependency] *)

(** X12.  After [S.addDependency(P, c)], [S] is not eligible for execution. *)
Theorem addDependency_not_eligible w S P c s p :
  instructions w !! S = Some s → instructions w !! P = Some p →
  ∃ w' s',
    addDependency S P c w = (Ret tt, w') ∧
    instructions w' !! S = Some s' ∧
    isEligibleForExecution s' = false.
Proof.
  intros HS HP.
  destruct (addDependency_lookup w S P c s p HS HP) as (w' & Hrun & _ & _ & Hw').
  eexists w', _. split; [done|]. rewrite Hw', HS. cbn.
  split; [reflexivity|]. cbn. rewrite decide_True by done.
  apply bool_decide_eq_false. apply insert_non_empty.
Qed.

(** X13.  [addDependency] with the same arguments a second time changes
    nothing. *)
Theorem addDependency_idempotent w w1 S P c s p :
  instructions w !! S = Some s → instructions w !! P = Some p →
  addDependency S P c w = (Ret tt, w1) →
  addDependency S P c w1 = (Ret tt, w1).
Proof.
  intros HS HP Hrun.
  destruct (addDependency_lookup w S P c s p HS HP) as (w1' & Hrun1 & Hd & Hc & Hw1).
  rewrite Hrun in Hrun1. injection Hrun1 as <-.
  pose proof (Hw1 S) as HS1. rewrite HS in HS1. cbn [fmap option_fmap option_map] in HS1.
  pose proof (Hw1 P) as HP1. rewrite HP in HP1. cbn [fmap option_fmap option_map] in HP1.
  destruct (addDependency_lookup w1 S P c _ _ HS1 HP1)
    as (w2 & Hrun2 & Hd2 & Hc2 & Hw2).
  rewrite Hrun2. f_equal.
  destruct w1 as [ins1 ds1 c1], w2 as [ins2 ds2 c2].
  cbn [instructions datas taskCounter] in *. subst ds2 c2.
  f_equal. apply map_eq. intros r. rewrite Hw2.
  cbn [index dependencies invertedDependencies].
  rewrite !Hw1. destruct (instructions w !! r) as [i|] eqn:Hi; [|done].
  cbn [fmap option_fmap option_map index task data dependencies invertedDependencies].
  f_equal. f_equal.
  - destruct (decide (r = S)) as [->|Hr]; [|done].
    unfold getValue at 1. cbn [dependencies index].
    rewrite decide_True by done.
    rewrite lookup_insert_eq. cbn [fmap option_fmap option_map snd default].
    rewrite insert_insert_eq. do 2 f_equal. unfold id.
    by rewrite (assoc_L (∪)), union_idemp_L.
  - destruct (decide (r = P)) as [->|Hr]; [|done].
    assert (i = p) as -> by congruence.
    unfold add at 1.
    replace (contains _ _) with true; [done|]. symmetry.
    apply (add_contains (invertedDependencies p) S s).
Qed.

(** X14.  [addDependency] keeps every edge recorded at both ends, as long as no
    two instructions share an index. *)
Theorem addDependency_keeps_edges_symmetric w w' S P c s p :
  indices_unique w → edges_symmetric w →
  instructions w !! S = Some s → instructions w !! P = Some p →
  addDependency S P c w = (Ret tt, w') →
  indices_unique w' ∧ edges_symmetric w'.
Proof.
  intros Huniq Hsym HS HP Hrun.
  destruct (addDependency_lookup w S P c s p HS HP) as (w1 & Hrun1 & _ & _ & Hw').
  rewrite Hrun in Hrun1. injection Hrun1 as <-. split.
  - intros r1 r2 i1 i2 H1 H2 Hidx.
    rewrite Hw' in H1, H2.
    destruct (instructions w !! r1) as [j1|] eqn:Hj1; [|done].
    destruct (instructions w !! r2) as [j2|] eqn:Hj2; [|done].
    cbn in H1, H2. simplify_eq. cbn in Hidx. eauto.
  - intros S' s' P' p' HS' HP' Hdep.
    rewrite Hw' in HS', HP'.
    destruct (instructions w !! S') as [s0|] eqn:Hs0; [|done].
    destruct (instructions w !! P') as [p0|] eqn:Hp0; [|done].
    cbn in HS', HP'. simplify_eq.
    unfold getValue in Hdep. cbn in Hdep.
    unfold contains at 1. cbn [invertedDependencies index].
    fold (contains (if decide (P' = P)
                    then add (invertedDependencies p0) S s
                    else invertedDependencies p0) s0).
    assert (is_Some (getValue (dependencies s0) p0) ∨
            (S' = S ∧ P' = P)) as [Hold|[-> ->]].
    { destruct (decide (S' = S)) as [->|HneS]; [|left; exact Hdep].
      destruct (decide (index p = index p0)) as [Heq|Hne].
      - right. split; [done|]. symmetry. eauto.
      - left. rewrite lookup_insert_ne in Hdep by done. exact Hdep. }
    + pose proof (Hsym S' s0 P' p0 Hs0 Hp0 Hold) as Hc.
      destruct (decide (P' = P)); [by apply add_keeps | done].
    + assert (s0 = s) as -> by congruence.
      rewrite decide_True by done. apply add_contains.
Qed.

(** X15.  [addDependency] and [transferOutput] fit together: once [S] depends on
    [I] for [c], [I.transferOutput(S)] does not raise, and afterwards [S]'s
    data has for [c] the value that [I]'s data has. *)
Theorem addDependency_then_transferOutput w S I c s i di dt :
  instructions w !! S = Some s → instructions w !! I = Some i →
  datas w !! data i = Some di → datas w !! data s = Some dt →
  ∃ w1 w2 dt',
    addDependency S I c w = (Ret tt, w1) ∧
    transferOutput I S w1 = (Ret tt, w2) ∧
    datas w2 !! data s = Some dt' ∧
    getComponentUnchecked dt' c = getComponentUnchecked di c.
Proof.
  intros HS HI Hdi Hdt.
  destruct (addDependency_lookup w S I c s i HS HI) as (w1 & Hrun & Hd & Hc & Hw1).
  pose proof (Hw1 S) as HS1. rewrite HS in HS1.
  cbn [fmap option_fmap option_map] in HS1.
  pose proof (Hw1 I) as HI1. rewrite HI in HI1.
  cbn [fmap option_fmap option_map] in HI1.
  set (cs := {[ c ]} ∪ default ∅ (getValue (dependencies s) i)) in *.
  destruct (transferLoop_spec (data i) (data s) di (elements cs)
              (datas w) di dt Hdi Hdt)
    as (ds' & di' & dt' & Hloop & _ & Ht' & _ & Hin & _); [done|].
  exists w1, (mkHeap (instructions w1) ds' (taskCounter w1)), dt'.
  split; [done|]. unfold transferOutput, load. rewrite HS1, HI1.
  unfold getValue at 1. cbn [dependencies index data].
  rewrite decide_True by done.
  rewrite lookup_insert_eq. cbn [fmap option_fmap option_map snd].
  rewrite Hd, Hloop.
  split_and!; [done..|]. apply Hin. apply elem_of_elements.
  apply elem_of_union_l. by apply elem_of_singleton.
Qed.

End more.

(** *** The properties at the example heap *)

Lemma example_indices_unique : indices_unique Example.heap.
Proof.
  intros r1 r2 i1 i2 H1 H2 Hidx.
  apply example_lookup in H1 as [[-> ->]|[-> ->]];
    apply example_lookup in H2 as [[-> ->]|[-> ->]]; done.
Qed.

Lemma example_edges_symmetric : edges_symmetric Example.heap.
Proof.
  intros S s P p HS HP Hdep.
  apply example_lookup in HS as [[-> ->]|[-> ->]];
    apply example_lookup in HP as [[-> ->]|[-> ->]];
    vm_compute in Hdep; vm_compute; try done; by destruct Hdep.
Qed.

Lemma generateIndices_distinct_witness :
  NoDup (generateIndices 3 (2 ^ 30 - 2)).1 ∧
  Forall (λ i, 0 ≤ i < 2 ^ 30) (generateIndices 3 (2 ^ 30 - 2)).1 ∧
  0 ≤ (generateIndices 3 (2 ^ 30 - 2)).2 < 2 ^ 30.
Proof. apply (generateIndices_distinct 3 (2 ^ 30 - 2)); lia. Defined.

Lemma new_is_fresh_and_eligible_witness :
  let '(this, w') := new tt 1%nat Example.heap in
  instructions Example.heap !! this = None ∧
  (∃ i, instructions w' !! this = Some i ∧
        index i = taskCounter Example.heap ∧ data i = 1%nat ∧
        isEligibleForExecution i = true ∧ invertedDependencies i = ∅) ∧
  (∀ r, r ≠ this → instructions w' !! r = instructions Example.heap !! r) ∧
  datas w' = datas Example.heap ∧
  0 ≤ taskCounter w' < 2 ^ 30.
Proof.
  apply (new_is_fresh_and_eligible Example.heap tt 1%nat). cbn. lia.
Defined.

Lemma addDependency_not_eligible_witness :
  ∃ w' s',
    addDependency 1%nat 0%nat IO Example.heap = (Ret tt, w') ∧
    instructions w' !! 1%nat = Some s' ∧
    isEligibleForExecution s' = false.
Proof.
  apply (addDependency_not_eligible Example.heap 1%nat 0%nat IO
           Example.second Example.first); reflexivity.
Defined.

Lemma addDependency_idempotent_witness :
  addDependency 1%nat 0%nat IO (addDependency 1%nat 0%nat IO Example.heap).2 =
    (Ret tt, (addDependency 1%nat 0%nat IO Example.heap).2).
Proof.
  apply (addDependency_idempotent Example.heap _ 1%nat 0%nat IO
           Example.second Example.first); reflexivity.
Defined.

Lemma addDependency_keeps_edges_symmetric_witness :
  indices_unique (addDependency 1%nat 0%nat IO Example.heap).2 ∧
  edges_symmetric (addDependency 1%nat 0%nat IO Example.heap).2.
Proof.
  apply (addDependency_keeps_edges_symmetric Example.heap _ 1%nat 0%nat IO
           Example.second Example.first).
  - apply example_indices_unique.
  - apply example_edges_symmetric.
  - reflexivity.
  - reflexivity.
  - reflexivity.
Defined.

Lemma addDependency_then_transferOutput_witness :
  ∃ w1 w2 dt',
    addDependency 1%nat 0%nat IO Example.heap = (Ret tt, w1) ∧
    transferOutput 0%nat 1%nat w1 = (Ret tt, w2) ∧
    datas w2 !! data Example.second = Some dt' ∧
    getComponentUnchecked dt' IO =
      getComponentUnchecked (<[ DataGraph := 1 ]> (<[ IO := 1 ]> ∅)) IO.
Proof.
  apply (addDependency_then_transferOutput Example.heap 1%nat 0%nat IO
           Example.second Example.first _ (<[ IO := 2 ]> ∅)); reflexivity.
Defined.

End TaskInstructionMore.

(** * Properties of components *)

Module PersistenceFacts.
Import Persistence.

Section component_facts.
Context {T : Type}.
Implicit Types (c : Component T) (k key : string) (v : T).

Lemma compositeLoop_spec (m : gmap string T) (l : list string) : ∀ acc,
  foldl (λ relevantParts k,
           if decide (k ≠ ROOT)
           then relevantParts ++ [(k, m !! k)]
           else relevantParts) acc l =
    acc ++ ((λ k, (k, m !! k)) <$> filter (λ k, k ≠ ROOT) l).
Proof.
  induction l as [|k l IH]; intros acc; cbn [foldl].
  - by rewrite app_nil_r.
  - rewrite IH. rewrite filter_cons. destruct (decide (k ≠ ROOT)).
    + by rewrite fmap_cons, <- app_assoc.
    + done.
Qed.

Lemma elem_of_getAllKeys c k : k ∈ getAllKeys c ↔ is_Some (getPart c k).
Proof.
  unfold getAllKeys, getPart. rewrite list_elem_of_fmap. split.
  - intros ([k' v] & -> & Hin). apply elem_of_map_to_list in Hin. eauto.
  - intros [v Hv]. exists (k, v). split; [done|]. by apply elem_of_map_to_list.
Qed.

Lemma lookup_withPart c key v k :
  getPart (withPart key v c) k = if decide (key = k) then Some v else getPart c k.
Proof. unfold getPart, withPart. cbn. apply lookup_insert. Qed.

Lemma elem_of_getCompositeParts c k o :
  (k, o) ∈ getCompositeParts c ↔ k ≠ ROOT ∧ is_Some o ∧ getPart c k = o.
Proof.
  unfold getCompositeParts. rewrite compositeLoop_spec, app_nil_l.
  rewrite list_elem_of_fmap. split.
  - intros (k' & [= -> ->] & Hin). apply list_elem_of_filter in Hin as [Hne Hin].
    apply elem_of_getAllKeys in Hin. done.
  - intros (Hne & Hsome & <-). exists k. split; [done|].
    apply list_elem_of_filter. split; [done|]. by apply elem_of_getAllKeys.
Qed.

(** X16.  [withPart] and [getPart]: the part bound last is what [getPart]
    returns for its key, every other key keeps its part; [withRoot] is
    [withPart] at the root key, and binding another key leaves the root. *)
Theorem getPart_withPart c key v :
  (∀ k, getPart (withPart key v c) k =
          if decide (key = k) then Some v else getPart c k) ∧
  getRoot (withRoot v c) = Some v ∧
  withRoot v c = withPart ROOT v c ∧
  (key ≠ ROOT → getRoot (withPart key v c) = getRoot c).
Proof.
  split_and!.
  - apply lookup_withPart.
  - unfold getRoot, withRoot, getPart. cbn. apply lookup_insert_eq.
  - done.
  - intros Hne. unfold getRoot. rewrite lookup_withPart.
    by rewrite decide_False.
Qed.

(** X17.  [getAllKeys] lists each key that has a part, once; [getParts]
    lists the parts of these keys, as many as there are keys. *)
Theorem getAllKeys_getParts c :
  NoDup (getAllKeys c) ∧
  (∀ k, k ∈ getAllKeys c ↔ is_Some (getPart c k)) ∧
  (∀ v, v ∈ getParts c ↔ ∃ k, getPart c k = Some v) ∧
  length (getParts c) = length (getAllKeys c).
Proof.
  split_and!.
  - apply NoDup_fst_map_to_list.
  - apply elem_of_getAllKeys.
  - intros v. unfold getParts, getPart. rewrite list_elem_of_fmap. split.
    + intros ([k v'] & -> & Hin). apply elem_of_map_to_list in Hin. eauto.
    + intros [k Hk]. exists (k, v). split; [done|].
      by apply elem_of_map_to_list.
  - unfold getParts, getAllKeys. by rewrite !length_fmap.
Qed.

(** X18.  [getCompositeParts] returns exactly the keys other than the root
    that have a part, each once and together with its part. *)
Theorem getCompositeParts_spec c :
  (∀ k o, (k, o) ∈ getCompositeParts c ↔
            k ≠ ROOT ∧ is_Some o ∧ getPart c k = o) ∧
  NoDup (getCompositeParts c).*1.
Proof.
  split; [apply elem_of_getCompositeParts|].
  unfold getCompositeParts. rewrite compositeLoop_spec, app_nil_l.
  rewrite <- list_fmap_compose.
  rewrite (list_fmap_ext _ id (filter (λ k, k ≠ ROOT) (getAllKeys c)))
    by done.
  rewrite list_fmap_id. apply NoDup_filter, NoDup_fst_map_to_list.
Qed.

(** X19.  Binding the root changes no composite part, and a part bound to
    another key is among the composite parts, in place of an older part
    of that key. *)
Theorem getCompositeParts_with c key v :
  (∀ e, e ∈ getCompositeParts (withRoot v c) ↔ e ∈ getCompositeParts c) ∧
  (key ≠ ROOT →
   ∀ k o, (k, o) ∈ getCompositeParts (withPart key v c) ↔
            (k = key ∧ o = Some v) ∨
            (k ≠ key ∧ (k, o) ∈ getCompositeParts c)).
Proof.
  split.
  - intros [k o]. rewrite !elem_of_getCompositeParts.
    change (withRoot v c) with (withPart ROOT v c).
    rewrite lookup_withPart. split.
    + intros (Hne & Hs & Ho). rewrite decide_False in Ho by done. done.
    + intros (Hne & Hs & Ho). rewrite decide_False by done. done.
  - intros Hkey k o. rewrite !elem_of_getCompositeParts.
    rewrite lookup_withPart. destruct (decide (key = k)) as [->|Hne].
    + split.
      * intros (_ & _ & <-). by left.
      * intros [[_ ->]|[? _]]; [|done]. split_and!; eauto.
    + split.
      * intros (? & ? & ?). right. split_and!; auto.
      * intros [[-> _]|[_ ?]]; done.
Qed.

End component_facts.

Example example_getCompositeParts :
  getRoot Example.graphs = Some 1 ∧
  length (getCompositeParts Example.graphs) = 2%nat ∧
  ("a.ttl", Some 2) ∈ getCompositeParts Example.graphs.
Proof. vm_compute. split_and!; [done..|]. set_solver. Qed.

Lemma getCompositeParts_with_witness :
  ("a.ttl", Some 2) ∈ getCompositeParts (withPart "c.ttl" 4 Example.graphs) ↔
    ("a.ttl" = "c.ttl" ∧ Some 2 = Some 4) ∨
    ("a.ttl" ≠ "c.ttl" ∧ ("a.ttl", Some 2) ∈ getCompositeParts Example.graphs).
Proof.
  apply (proj2 (getCompositeParts_with Example.graphs "c.ttl" 4)).
  discriminate.
Defined.

End PersistenceFacts.

(** * Properties of the validation service *)

Module ValidationServiceFacts.
Import TaskInstruction ValidationService.

Section service_facts.
Context {Validator : Type}.
Variable toStr : Validator → string.
Variable getTypesForValidation : Validator → list ModelComponent.

Implicit Types (v u : Validator) (s rel : gmap string Validator)
  (vs : gmap ModelComponent (gmap string Validator))
  (tasks : list (ValidationTask Validator)).

Lemma validator_add_contains s v : contains toStr (add toStr s v) v = true.
Proof.
  unfold ValidationService.add.
  destruct (contains toStr s v) eqn:Hc; [done|].
  unfold ValidationService.contains. rewrite lookup_insert_eq.
  apply bool_decide_eq_true. eauto.
Qed.

Lemma validator_add_keeps s v k u : s !! k = Some u → add toStr s v !! k = Some u.
Proof.
  intros Hk. unfold ValidationService.add.
  destruct (contains toStr s v) eqn:Hc; [done|].
  apply bool_decide_eq_false in Hc.
  rewrite lookup_insert_ne; [done|]. intros <-. apply Hc. eauto.
Qed.

Lemma registerLoop_spec v (l : list ModelComponent) : ∀ vs,
  let reg :=
    foldl (λ vs c,
             let relevantSet :=
               match vs !! c with Some s => s | None => ∅ end in
             <[ c := add toStr relevantSet v ]> vs) vs l in
  (∀ c, c ∈ l → ∃ s, reg !! c = Some s ∧ contains toStr s v = true) ∧
  (∀ c, c ∉ l → reg !! c = vs !! c) ∧
  (∀ c s k u, vs !! c = Some s → s !! k = Some u →
     ∃ s', reg !! c = Some s' ∧ s' !! k = Some u).
Proof.
  induction l as [|c l IH]; intros vs; cbn [foldl].
  - split_and!.
    + intros c Hc. by apply elem_of_nil in Hc.
    + done.
    + eauto.
  - set (rel := match vs !! c with Some s => s | None => ∅ end).
    destruct (IH (<[ c := add toStr rel v ]> vs)) as (Hin & Hout & Hkeep).
    split_and!.
    + intros c' Hc'. destruct (decide (c' ∈ l)) as [Hl|Hl]; [by apply Hin|].
      apply elem_of_cons in Hc' as [->|?]; [|done].
      rewrite Hout by done. rewrite lookup_insert_eq.
      eexists. split; [done|]. apply validator_add_contains.
    + intros c' Hc'. apply not_elem_of_cons in Hc' as [Hne Hl].
      rewrite Hout by done. by rewrite lookup_insert_ne.
    + intros c' s k u Hs Hk. destruct (decide (c = c')) as [<-|Hne].
      * apply (Hkeep c (add toStr rel v) k u); [apply lookup_insert_eq|].
        subst rel. rewrite Hs. by apply validator_add_keeps.
      * apply (Hkeep c' s k u); [|done]. by rewrite lookup_insert_ne.
Qed.

(** X20.  After [registerValidator(v)], [v] is in the set of every component
    among its types; the sets of the other components are as before, and
    whatever was registered stays registered. *)
Theorem registerValidator_registers v vs :
  (∀ c, c ∈ getTypesForValidation v →
     ∃ s, registerValidator toStr getTypesForValidation v vs !! c = Some s ∧
          contains toStr s v = true) ∧
  (∀ c, c ∉ getTypesForValidation v →
     registerValidator toStr getTypesForValidation v vs !! c = vs !! c) ∧
  (∀ c s k u, vs !! c = Some s → s !! k = Some u →
     ∃ s', registerValidator toStr getTypesForValidation v vs !! c = Some s' ∧
           s' !! k = Some u).
Proof. apply registerLoop_spec. Qed.

Lemma visitValidators_spec (l : list Validator) : ∀ tasks rel,
  observer_inv toStr getTypesForValidation tasks rel →
  observer_inv toStr getTypesForValidation (visitValidators toStr getTypesForValidation l (tasks, rel)).1
               (visitValidators toStr getTypesForValidation l (tasks, rel)).2 ∧
  ∀ key,
    key ∈ taskKeys toStr (visitValidators toStr getTypesForValidation l (tasks, rel)).1 ↔
    key ∈ taskKeys toStr tasks ∨ key ∈ toStr <$> l.
Proof.
  induction l as [|v l IH]; intros tasks rel Hinv.
  - split; [done|]. intros key. cbn. rewrite elem_of_nil. tauto.
  - unfold visitValidators. cbn [foldl]. fold (visitValidators toStr getTypesForValidation l).
    destruct Hinv as (Hnd & Hrel & Hall).
    destruct (contains toStr rel v) eqn:Hc.
    + destruct (IH tasks rel) as (Hinv' & Hkeys'); [done|].
      split; [done|]. intros key. rewrite Hkeys', fmap_cons, elem_of_cons.
      apply bool_decide_eq_true in Hc. apply Hrel in Hc.
      split; [tauto|]. intros [?|[->|?]]; auto.
    + apply bool_decide_eq_false in Hc.
      assert (toStr v ∉ taskKeys toStr tasks) as Hnew by (by rewrite <- Hrel).
      assert (add toStr rel v = <[ toStr v := v ]> rel) as ->.
      { unfold ValidationService.add.
        replace (contains toStr rel v) with false; [done|].
        symmetry. by apply bool_decide_eq_false. }
      destruct (IH (tasks ++ [create getTypesForValidation v]) (<[ toStr v := v ]> rel))
        as (Hinv' & Hkeys').
      { unfold observer_inv, ValidationService.taskKeys.
        rewrite fmap_app. cbn [fmap list_fmap]. split_and!.
        - apply NoDup_app. split_and!; [done| |apply NoDup_singleton].
          intros key Hk ->%list_elem_of_singleton. done.
        - intros key. rewrite elem_of_app, list_elem_of_singleton.
          cbn [validator]. rewrite <- Hrel.
          destruct (decide (toStr v = key)) as [<-|Hne].
          + rewrite lookup_insert_eq. split; eauto.
          + rewrite lookup_insert_ne by done. split; [tauto|].
            intros [?|Hk]; [done|]. cbn in Hk. congruence.
        - apply Forall_app. split; [done|]. by constructor. }
      split; [done|]. intros key. rewrite Hkeys', fmap_cons, elem_of_cons.
      unfold ValidationService.taskKeys at 1. rewrite fmap_app, elem_of_app.
      cbn. rewrite list_elem_of_singleton. tauto.
Qed.

Lemma observerLoop_spec vs (cs : list ModelComponent) : ∀ tasks rel,
  observer_inv toStr getTypesForValidation tasks rel →
  let st :=
    foldl (λ st c,
             match vs !! c with
             | Some validatorSet =>
                 visitValidators toStr getTypesForValidation
                   (members validatorSet) st
             | None => st
             end) (tasks, rel) cs in
  observer_inv toStr getTypesForValidation st.1 st.2 ∧
  ∀ key,
    key ∈ taskKeys toStr st.1 ↔
    key ∈ taskKeys toStr tasks ∨
    ∃ c s, c ∈ cs ∧ vs !! c = Some s ∧ key ∈ toStr <$> members s.
Proof.
  induction cs as [|c cs IH]; intros tasks rel Hinv; cbn [foldl].
  - split; [done|]. intros key. split; [tauto|].
    intros [?|(c & s & Hc & _)]; [done|]. by apply elem_of_nil in Hc.
  - destruct (vs !! c) as [s|] eqn:Hs.
    + destruct (visitValidators_spec (members s) tasks rel Hinv) as (Hinv1 & Hk1).
      destruct (visitValidators toStr getTypesForValidation (members s) (tasks, rel))
        as [tasks1 rel1].
      destruct (IH tasks1 rel1 Hinv1) as (Hinv' & Hkeys').
      split; [done|]. intros key. rewrite Hkeys', Hk1. split.
      * intros [[?|?]|(c' & s' & Hc' & Hs' & Hk)]; [by left| |].
        -- right. exists c, s. split_and!; [apply elem_of_cons; by left|done..].
        -- right. exists c', s'. split_and!; [apply elem_of_cons; by right|done..].
      * intros [?|(c' & s' & [->|Hc']%elem_of_cons & Hs' & Hk)]; [by left; left| |].
        -- left. right. congruence.
        -- right. eauto.
    + destruct (IH tasks rel Hinv) as (Hinv' & Hkeys').
      split; [done|]. intros key. rewrite Hkeys'. split.
      * intros [?|(c' & s' & Hc' & Hs' & Hk)]; [by left|].
        right. exists c', s'. split_and!; [apply elem_of_cons; by right|done..].
      * intros [?|(c' & s' & [->|Hc']%elem_of_cons & Hs' & Hk)];
          [by left | congruence | right; eauto].
Qed.

(** X21.  The observer returns one task for each validator that is registered
    for a changed component, and no other: no two tasks are for validators
    of the same string form, a string form has a task exactly when a
    validator of that form is in the set of some changed component, and
    each task reads the types of its validator and writes the validation
    report. *)
Theorem onChange_one_task_per_validator vs (changeBuffer : gset ModelComponent) :
  let tasks := onChange toStr getTypesForValidation vs changeBuffer in
  NoDup (taskKeys toStr tasks) ∧
  (∀ key,
     key ∈ taskKeys toStr tasks ↔
     ∃ c s k v, c ∈ changeBuffer ∧ vs !! c = Some s ∧ s !! k = Some v ∧
                toStr v = key) ∧
  (∀ t, t ∈ tasks →
     reads t = getTypesForValidation (validator t) ∧
     writes t = [ValidationReport]).
Proof.
  unfold onChange.
  destruct (observerLoop_spec vs (elements changeBuffer) [] ∅)
    as ((Hnd & _ & Hall) & Hkeys).
  { split_and!; [constructor| |constructor].
    intros key. rewrite lookup_empty. split; [by intros [? ?]|].
    intros Hk. by apply elem_of_nil in Hk. }
  cbn zeta in *. split_and!.
  - done.
  - intros key. rewrite Hkeys. split.
    + intros [Hk|(c & s & Hc & Hs & Hk)]; [by apply elem_of_nil in Hk|].
      apply list_elem_of_fmap in Hk as (v & -> & Hv).
      unfold members in Hv. apply list_elem_of_fmap in Hv as ([k v'] & -> & Hin).
      apply elem_of_map_to_list in Hin.
      exists c, s, k, v'. split_and!; [by apply elem_of_elements|done..].
    + intros (c & s & k & v & Hc & Hs & Hk & <-). right.
      exists c, s. split_and!; [by apply elem_of_elements|done|].
      apply list_elem_of_fmap. exists v. split; [done|].
      unfold members. apply list_elem_of_fmap. exists (k, v).
      split; [done|]. by apply elem_of_map_to_list.
  - intros t Ht. rewrite Forall_forall in Hall.
    rewrite (Hall t Ht). done.
Qed.

End service_facts.

Example example_onChange :
  taskKeys Example.name
    (onChange Example.name Example.types Example.registry {[ DataGraph ]}) ≡ₚ
    ["shacl"; "io"] ∧
  onChange Example.name Example.types Example.registry {[ UI ]} = [].
Proof.
  split; [|vm_compute; reflexivity].
  vm_compute. reflexivity.
Qed.

End ValidationServiceFacts.
